(** * B5-A1-Solution: the snippets of [a1-solution.ts], embedded and verified

    The file has two parts.  The first embeds the TypeScript source as
    executable Rocq definitions: JavaScript numbers are IEEE 754 binary64
    values ([SpecFloat] with [prec = 53] and [emax = 1024]), strings are
    sequences of UTF-16 code units, arrays live in a store of references,
    the console is an output log, and promises, microtasks and timers are
    a small deterministic event loop.  The second part states and proves
    the properties of each snippet. *)

From Stdlib Require Import ZArith NArith List Bool Lia Ascii String SpecFloat.
From stdpp Require Import gmap list.
Import ListNotations.
Local Open Scope Z_scope.

(* ===================================================================== *)
(** * Part I: the embedding                                               *)
(* ===================================================================== *)

(** ** [number]: IEEE 754 binary64 *)

Definition prec : Z := 53.
Definition emax : Z := 1024.

(** A TypeScript [number].  Run-time numbers are the values [x] with
    [is_number x = true]; NaN carries no payload, as in JavaScript. *)
Definition number : Type := spec_float.

Definition is_number (x : number) : bool := valid_binary prec emax x.

Definition is_NaN (x : number) : bool :=
  match x with S754_nan => true | _ => false end.

(** A numeric literal with an integer value. *)
Definition num_of_Z (z : Z) : number := binary_normalize prec emax z 0 false.

(** [x * y] *)
Definition num_mul (x y : number) : number := SFmul prec emax x y.

(** [x < y], [x > y], [x >= y] and [x === y]: every comparison with NaN
    is false, and the two zeroes are equal. *)
Definition num_lt (x y : number) : bool :=
  match SFcompare x y with Some Lt => true | _ => false end.

Definition num_gt (x y : number) : bool :=
  match SFcompare x y with Some Gt => true | _ => false end.

Definition num_ge (x y : number) : bool :=
  match SFcompare x y with Some (Gt | Eq) => true | _ => false end.

Definition num_strict_eq (x y : number) : bool :=
  match SFcompare x y with Some Eq => true | _ => false end.

(** The real value of a finite number, as the integer pair [(m, e)]
    standing for [m * 2^e]; [None] for NaN and the infinities. *)
Definition num_value (x : number) : option (Z * Z) :=
  match x with
  | S754_zero _ => Some (0, 0)
  | S754_finite s m e => Some (if s then Z.neg m else Z.pos m, e)
  | S754_infinity _ | S754_nan => None
  end.

(** The integer a finite number denotes, when it denotes one whose
    binary exponent is not negative after scaling. *)
Definition num_to_Z (x : number) : option Z :=
  match num_value x with
  | Some (m, e) =>
      if 0 <=? e then Some (m * 2 ^ e)
      else if m mod 2 ^ (- e) =? 0 then Some (m / 2 ^ (- e)) else None
  | None => None
  end.

(** [twice n r]: the number [r] is twice the number [n], exactly: a
    finite [n] of value [m * 2^e] gives the value [m * 2^(e+1)], written
    with one of the two pairs, or the infinity of the sign of [n] when
    that value is [2^emax] or more in size; an infinity or NaN gives
    itself. *)
Definition twice (n r : number) : Prop :=
  match num_value n with
  | Some (m, e) =>
      num_value r = Some (m, e + 1)
      \/ num_value r = Some (2 * m, e)
      \/ (r = S754_infinity (m <? 0) /\ 0 <= e /\ 2 ^ emax <= 2 * Z.abs m * 2 ^ e)
  | None => r = n
  end.

(** ** [string]: a sequence of UTF-16 code units *)

Definition code_unit : Type := N.
Definition jsstring : Type := list code_unit.

(** A string literal of the source (the literals of these snippets are
    ASCII). *)
Fixpoint lit (s : string) : jsstring :=
  match s with
  | EmptyString => []
  | String c s' => N_of_ascii c :: lit s'
  end.

(** [s.length]: the number of code units, as a [number]. *)
Definition str_length (s : jsstring) : number :=
  num_of_Z (Z.of_nat (length s)).

(** ** Number::toString, the conversion a template literal applies

    The ECMAScript algorithm for radix 10: the shortest decimal
    significand [s] (of [k] digits) and exponent [n] such that
    [s * 10^(n-k)] rounds to the number, then one of five layouts chosen by
    [n] and [k].  Among several significands of the shortest length the
    one closest to the number is taken (the even one on a tie). *)

(** decimal digits of a non-negative integer, most significant first *)
Fixpoint decimal_digits (fuel : nat) (z : Z) (acc : jsstring) : jsstring :=
  match fuel with
  | O => acc
  | S fuel' =>
      let acc' := Z.to_N (48 + z mod 10) :: acc in
      if z <? 10 then acc' else decimal_digits fuel' (z / 10) acc'
  end.

Definition decimal (z : Z) : jsstring :=
  decimal_digits (S (Z.to_nat (Z.log2 z))) z [].

(** The rounding interval of the positive number [m * 2^e], in units of
    [2^(e-2)]: every real strictly between [lo] and [hi] rounds to it,
    and the end points do when [m] is even.  Below a power of two the gap
    to the predecessor is half the gap to the successor. *)
Definition round_lo (m : positive) (e : Z) : Z :=
  if (Z.pos m =? 2 ^ (prec - 1)) && (3 - emax - prec <? e)
  then 4 * Z.pos m - 1 else 4 * Z.pos m - 2.

Definition round_hi (m : positive) : Z := 4 * Z.pos m + 2.

(** [in_interval m e a w s]: [s * a / w] units lie in the rounding interval. *)
Definition in_interval (m : positive) (e : Z) (a w s : Z) : bool :=
  if Z.even (Z.pos m)
  then (round_lo m e * w <=? s * a) && (s * a <=? round_hi m * w)
  else (round_lo m e * w <? s * a) && (s * a <? round_hi m * w).

(** The significand for the decimal exponent [q], if one exists: the
    candidates are the two integers around [m * 2^e / 10^q]. *)
Definition significand_at (m : positive) (e q : Z) : option Z :=
  let un := if 0 <=? e - 2 then 2 ^ (e - 2) else 1 in
  let ud := if 0 <=? e - 2 then 1 else 2 ^ (2 - e) in
  let tn := if 0 <=? q then 10 ^ q else 1 in
  let td := if 0 <=? q then 1 else 10 ^ (- q) in
  let a := tn * ud in
  let w := un * td in
  let x := 4 * Z.pos m * w in
  let f := x / a in
  let ok_f := (1 <=? f) && in_interval m e a w f in
  let ok_c := in_interval m e a w (f + 1) in
  match ok_f, ok_c with
  | true, true =>
      let df := x - f * a in
      let dc := (f + 1) * a - x in
      if df <? dc then Some f
      else if dc <? df then Some (f + 1)
      else if Z.even f then Some f else Some (f + 1)
  | true, false => Some f
  | false, true => Some (f + 1)
  | false, false => None
  end.

(** The largest decimal exponent with a significand gives the shortest one. *)
Fixpoint shortest_decimal (fuel : nat) (m : positive) (e q : Z) : option (Z * Z) :=
  match fuel with
  | O => None
  | S fuel' =>
      match significand_at m e q with
      | Some s => Some (s, q)
      | None => shortest_decimal fuel' m e (q - 1)
      end
  end.

Definition zeros (n : Z) : jsstring := repeat 48%N (Z.to_nat n).

Definition exponent_part (n : Z) : jsstring :=
  lit "e" ++ (if 0 <=? n - 1 then lit "+" else lit "-") ++ decimal (Z.abs (n - 1)).

(** The layout of step 5 onwards, for the digits of [s] and [n = q + k]. *)
Definition layout (digits : jsstring) (n : Z) : jsstring :=
  let k := Z.of_nat (length digits) in
  if (k <=? n) && (n <=? 21) then digits ++ zeros (n - k)
  else if (0 <? n) && (n <=? 21) then
    take (Z.to_nat n) digits ++ lit "." ++ drop (Z.to_nat n) digits
  else if (-6 <? n) && (n <=? 0) then lit "0." ++ zeros (- n) ++ digits
  else if k =? 1 then digits ++ exponent_part n
  else take 1 digits ++ lit "." ++ drop 1 digits ++ exponent_part n.

(** The search starts above the decimal exponent of the largest number
    and its 700 steps reach below that of the 17-digit form of the
    smallest one, so that it ends with [Some] on every number. *)
Definition Number_toString (x : number) : jsstring :=
  match x with
  | S754_nan => lit "NaN"
  | S754_zero _ => lit "0"
  | S754_infinity s => (if s then lit "-" else []) ++ lit "Infinity"
  | S754_finite sg m e =>
      (if sg then lit "-" else []) ++
      match shortest_decimal 700 m e 309 with
      | Some (s, q) =>
          let digits := decimal s in
          layout digits (q + Z.of_nat (length digits))
      | None => []
      end
  end.

(** ** Arrays: a store of references

    An array value is a reference; the store maps each allocated
    reference to the elements of its array.  [Array.prototype.filter] and
    [Array.prototype.concat] allocate a new array and write to no other. *)

Definition ref : Type := positive.

Section Arrays.
Context {T : Type}.

(** [[]] and every array a built-in creates: a reference not in use. *)
Definition new_array (h : gmap ref (list T)) (elems : list T)
  : ref * gmap ref (list T) :=
  let r := fresh (dom h) in (r, <[r := elems]> h).

(** [this.filter(callback)] for a callback without effects. *)
Definition Array_filter (callback : T -> bool) (h : gmap ref (list T)) (this : ref)
  : option (ref * gmap ref (list T)) :=
  match h !! this with
  | Some elems => Some (new_array h (List.filter callback elems))
  | None => None
  end.

(** [this.concat(arg)] for an array argument. *)
Definition Array_concat (h : gmap ref (list T)) (this arg : ref)
  : option (ref * gmap ref (list T)) :=
  match h !! this, h !! arg with
  | Some a, Some b => Some (new_array h (a ++ b))
  | _, _ => None
  end.

(** A later store that still holds every array of [h0], unchanged. *)
Definition extends (h0 h : gmap ref (list T)) : Prop :=
  forall l, l ∈ dom h0 -> h !! l = h0 !! l.
End Arrays.

(** ** The console *)

(** The console: the lines written so far, oldest first. *)
Definition console : Type := list jsstring.

Definition console_log (line : jsstring) (out : console) : console := out ++ [line].

(** ** Promises, microtasks and timers

    A realm holds the promises created so far (a promise is named by its
    index), the queue of microtasks, the pending timers in firing order,
    and the clock in milliseconds.  Each turn of the event loop runs the
    oldest microtask, or, when there is none, advances the clock to the
    next timer and runs its callback. *)

(** [new Error(message)] *)
Record Error : Type := { message : jsstring }.

Inductive PromiseState : Type :=
  | Pending
  | Fulfilled (v : number)
  | Rejected (reason : Error).

(** A promise: its state, and the promises that follow it (the
    reactions registered on it through [then]). *)
Record Promise : Type := { state : PromiseState; followers : list nat }.

Inductive Job : Type :=
  (** [inner.then(resolve of outer, reject of outer)], queued when
      [outer] is resolved with the promise [inner] *)
  | ResolveThenable (outer inner : nat)
  (** a reaction: settle [p] with the outcome of the promise it follows *)
  | Reaction (p : nat) (outcome : PromiseState).

(** The arrow function handed to [setTimeout], as the values it closes
    over: [n] and the [resolve] and [reject] functions of a promise. *)
Record TimerCallback : Type := { captured_n : number; captured_promise : nat }.

Record Realm : Type := {
  promises : list Promise;
  microtasks : list Job;
  timers : list (Z * TimerCallback);
  clock : Z
}.

(** What a call hands back to its caller at once. *)
Inductive Completion (A : Type) : Type :=
  | Normal (v : A)
  | Throw (e : Error).
Arguments Normal {A} v.
Arguments Throw {A} e.

Definition empty_realm (now : Z) : Realm :=
  {| promises := []; microtasks := []; timers := []; clock := now |}.

Definition promise_state (r : Realm) (p : nat) : option PromiseState :=
  state <$> promises r !! p.

Definition new_promise (r : Realm) : nat * Realm :=
  (length (promises r),
   {| promises := promises r ++ [ {| state := Pending; followers := [] |} ];
      microtasks := microtasks r; timers := timers r; clock := clock r |}).

Definition enqueue (j : Job) (r : Realm) : Realm :=
  {| promises := promises r; microtasks := microtasks r ++ [j];
     timers := timers r; clock := clock r |}.

(** [resolve(v)] with a value that is not a thenable, or [reject(e)]: a
    pending promise takes the outcome and its followers are notified in
    microtasks; a settled promise is left as it is. *)
Definition settle (p : nat) (outcome : PromiseState) (r : Realm) : Realm :=
  match promises r !! p with
  | Some {| state := Pending; followers := fs |} =>
      {| promises := <[p := {| state := outcome; followers := [] |}]> (promises r);
         microtasks := microtasks r ++ map (fun f => Reaction f outcome) fs;
         timers := timers r; clock := clock r |}
  | _ => r
  end.

(** [inner.then(...)] on behalf of [outer]. *)
Definition follow (outer inner : nat) (r : Realm) : Realm :=
  match promises r !! inner with
  | Some {| state := Pending; followers := fs |} =>
      {| promises := <[inner := {| state := Pending; followers := fs ++ [outer] |}]> (promises r);
         microtasks := microtasks r; timers := timers r; clock := clock r |}
  | Some {| state := outcome |} => enqueue (Reaction outer outcome) r
  | None => r
  end.

Fixpoint insert_timer (due : Z) (cb : TimerCallback) (ts : list (Z * TimerCallback))
  : list (Z * TimerCallback) :=
  match ts with
  | [] => [(due, cb)]
  | (due', cb') :: ts' =>
      if due <? due' then (due, cb) :: ts
      else (due', cb') :: insert_timer due cb ts'
  end.

(** [setTimeout(callback, delay)] *)
Definition setTimeout (cb : TimerCallback) (delay : Z) (r : Realm) : Realm :=
  {| promises := promises r; microtasks := microtasks r;
     timers := insert_timer (clock r + delay) cb (timers r); clock := clock r |}.

(** ** formatString *)

Section FormatString.
(** [String.prototype.toLowerCase] and [String.prototype.toUpperCase]
    are built-ins of the language; the snippet only chooses between
    them. *)
Variable toLowerCase : jsstring -> jsstring.
Variable toUpperCase : jsstring -> jsstring.

(** The optional parameter [toUpper?: boolean] is [None] when omitted
    (or passed as [undefined]). *)
Definition formatString (input : jsstring) (toUpper : option bool) : jsstring :=
  match toUpper with
  | Some false => toLowerCase input
  | _ => toUpperCase input
  end.
End FormatString.

(** ASCII case mapping, the restriction of the two built-ins to ASCII
    text; used to run [formatString] on examples. *)
Definition ascii_lower (c : code_unit) : code_unit :=
  if ((65 <=? c) && (c <=? 90))%N then (c + 32)%N else c.

Definition ascii_upper (c : code_unit) : code_unit :=
  if ((97 <=? c) && (c <=? 122))%N then (c - 32)%N else c.

(** ** filterByRating *)

Record RatedItem : Type := { title : jsstring; rating : number }.

(** The arrow function [item => item.rating >= 4]. *)
Definition rating_at_least_4 (item : RatedItem) : bool :=
  num_ge (rating item) (num_of_Z 4).

Definition item_good : RatedItem := {| title := lit "good"; rating := num_of_Z 5 |}.
Definition item_poor : RatedItem := {| title := lit "poor"; rating := num_of_Z 3 |}.
Definition item_fair : RatedItem := {| title := lit "fair"; rating := num_of_Z 4 |}.

(** The elements of the array the function returns, from the elements
    of its argument. *)
Definition filterByRating (items : list RatedItem) : list RatedItem :=
  List.filter rating_at_least_4 items.

(** The call on an array reference. *)
Definition filterByRating_call (h : gmap ref (list RatedItem)) (items : ref)
  : option (ref * gmap ref (list RatedItem)) :=
  Array_filter rating_at_least_4 h items.

(** ** concatenateArrays *)

(** The elements of the result, from the elements of the rest
    parameter's arrays: the loop appends each array to [result]. *)
Definition concatenateArrays {T : Type} (arrays : list (list T)) : list T :=
  fold_left (fun result array => result ++ array) arrays [].

(** The call on array references: [result] starts as a new empty array
    and each iteration rebinds it to the array [concat] creates. *)
Definition concatenateArrays_call {T : Type} (h : gmap ref (list T)) (arrays : list ref)
  : option (ref * gmap ref (list T)) :=
  fold_left
    (fun acc array =>
       match acc with
       | Some (result, h') => Array_concat h' result array
       | None => None
       end)
    arrays (Some (new_array h [])).

(** ** Vehicle and Car *)

Record Vehicle : Type := { make : jsstring; year : number }.

Definition new_Vehicle (make0 : jsstring) (year0 : number) : Vehicle :=
  {| make := make0; year := year0 |}.

Definition Vehicle_getInfo (this : Vehicle) (out : console) : console :=
  console_log
    (lit "Make: " ++ make this ++ lit ", Year: " ++ Number_toString (year this)) out.

(** [Car extends Vehicle]: the fields of the base class and [model]. *)
Record Car : Type := { Car_super : Vehicle; model : jsstring }.

Definition new_Car (make0 : jsstring) (year0 : number) (model0 : jsstring) : Car :=
  {| Car_super := new_Vehicle make0 year0; model := model0 |}.

(** [Car] does not override [getInfo]: the call runs [Vehicle]'s method
    on the same object. *)
Definition Car_getInfo (this : Car) (out : console) : console :=
  Vehicle_getInfo (Car_super this) out.

Definition Car_getModel (this : Car) (out : console) : console :=
  console_log (lit "Model: " ++ model this) out.

(** ** processValue *)

(** [string | number] *)
Inductive value : Type :=
  | VString (s : jsstring)
  | VNumber (n : number).

Definition processValue (v : value) : number :=
  match v with
  | VString s => str_length s
  | VNumber n => num_mul n (num_of_Z 2)
  end.

(** ** getMostExpensiveProduct *)

Record Product : Type := { name : jsstring; price : number }.

(** The body of the loop: the value of [maxProduct] after [product]. *)
Definition scan_step (maxProduct product : Product) : Product :=
  if num_gt (price product) (price maxProduct) then product else maxProduct.

(** [null] is [None]; the loop starts from [products[0]] and visits
    every element, the first included. *)
Definition getMostExpensiveProduct (products : list Product) : option Product :=
  match products with
  | [] => None
  | first :: _ => Some (fold_left scan_step products first)
  end.

(** A price the order can place: any number but NaN. *)
Definition comparable (p : Product) : Prop := is_NaN (price p) = false.

(** [r], at index [i] of [l], is the first record of the greatest price:
    no record exceeds it and it exceeds every record before it. *)
Definition first_greatest (l : list Product) (i : nat) (r : Product) : Prop :=
  l !! i = Some r
  /\ (forall p, p ∈ l -> num_gt (price p) (price r) = false)
  /\ (forall j p, (j < i)%nat -> l !! j = Some p -> num_gt (price r) (price p) = true).

Definition product_A : Product := {| name := lit "A"; price := num_of_Z 10 |}.
Definition product_B : Product := {| name := lit "B"; price := num_of_Z 20 |}.
Definition product_C : Product := {| name := lit "C"; price := num_of_Z 20 |}.

(** ** Day and getDayType *)

Inductive Day : Type :=
  | Monday | Tuesday | Wednesday | Thursday | Friday | Saturday | Sunday.

(** The run-time value of each member of the numeric enum. *)
Definition Day_value (d : Day) : number :=
  num_of_Z
    match d with
    | Monday => 0 | Tuesday => 1 | Wednesday => 2 | Thursday => 3
    | Friday => 4 | Saturday => 5 | Sunday => 6
    end.

Definition getDayType (day : Day) : jsstring :=
  if num_strict_eq (Day_value day) (Day_value Saturday)
     || num_strict_eq (Day_value day) (Day_value Sunday)
  then lit "Weekend"
  else lit "Weekday".

(** ** squareAsync *)

(** The body of the timer's arrow function. *)
Definition squareAsync_timeout (cb : TimerCallback) (r : Realm) : Realm :=
  let n := captured_n cb in
  if num_lt n (num_of_Z 0)
  then settle (captured_promise cb)
         (Rejected {| message := lit "Negative number not allowed" |}) r
  else settle (captured_promise cb) (Fulfilled (num_mul n n)) r.

(** The call.  The async function creates the promise it returns; its
    body runs at once: [new Promise] creates a second promise and runs
    the executor, which only sets the timer; returning that promise
    resolves the first with it, through a microtask. *)
Definition squareAsync (n : number) (r : Realm) : Completion nat * Realm :=
  let '(outer, r1) := new_promise r in
  let '(inner, r2) := new_promise r1 in
  let r3 := setTimeout {| captured_n := n; captured_promise := inner |} 1000 r2 in
  (Normal outer, enqueue (ResolveThenable outer inner) r3).

Definition run_job (j : Job) (r : Realm) : Realm :=
  match j with
  | ResolveThenable outer inner => follow outer inner r
  | Reaction p outcome => settle p outcome r
  end.

(** One turn of the event loop; [None] when nothing is left to run. *)
Definition step (r : Realm) : option Realm :=
  match microtasks r, timers r with
  | j :: js, _ =>
      Some (run_job j {| promises := promises r; microtasks := js;
                         timers := timers r; clock := clock r |})
  | [], (due, cb) :: ts =>
      Some (squareAsync_timeout cb
              {| promises := promises r; microtasks := [];
                 timers := ts; clock := Z.max (clock r) due |})
  | [], [] => None
  end.

(** The realm after at most [k] turns. *)
Fixpoint run (k : nat) (r : Realm) : Realm :=
  match k with
  | O => r
  | S k' => match step r with Some r' => run k' r' | None => r end
  end.


(* ===================================================================== *)
(** * Part I, continued: definitions for the further properties          *)
(* ===================================================================== *)

(** ** Integers as numbers *)

(** [Number.isSafeInteger]: an integer below [2^53] in size. *)
Definition safe_integer (z : Z) : Prop := - 2 ^ prec < z < 2 ^ prec.

(** The mantissa and the exponent of the number a positive safe integer
    [p] denotes: [p] shifted left to 53 bits. *)
Definition int_mantissa (p : positive) : positive :=
  Pos.shiftl p (Z.to_N (prec - Z.pos (digits2_pos p))).

Definition int_exponent (p : positive) : Z := Z.pos (digits2_pos p) - prec.

(** ** Records with integer fields *)

(** [{ name: nm, price: z }] for an integer price. *)
Definition priced (it : jsstring * Z) : Product :=
  {| name := it.1; price := num_of_Z it.2 |}.

(** [{ title: t, rating: z }] for an integer rating. *)
Definition rated (it : jsstring * Z) : RatedItem :=
  {| title := it.1; rating := num_of_Z it.2 |}.

Definition product_N : Product := {| name := lit "N"; price := S754_nan |}.

Definition sample_arrays : list (list Z) := [[1; 2]; []; [3]].

(** ** The outcome of squareAsync *)

(** The state the timer's callback settles the promise with: the two
    branches of its [if]. *)
Definition settled_state (n : number) : PromiseState :=
  if num_lt n (num_of_Z 0)
  then Rejected {| message := lit "Negative number not allowed" |}
  else Fulfilled (num_mul n n).

(** A realm with one promise, settled earlier, and nothing to run. *)
Definition settled_realm : Realm :=
  {| promises := [ {| state := Fulfilled (num_of_Z 7); followers := [] |} ];
     microtasks := []; timers := []; clock := 250 |}.

(** ** The event loop in any realm *)

(** The work left in a realm: every turn of the loop lowers it. *)
Definition job_weight (j : Job) : nat :=
  match j with ResolveThenable _ _ => 4 | Reaction _ _ => 1 end.

Definition work (r : Realm) : nat :=
  length (timers r)
  + list_sum (map job_weight (microtasks r))
  + 2 * list_sum (map (fun P => length (followers P)) (promises r)).

(** A realm as a program can build it: every promise named by a job, a
    timer or a list of followers exists. *)
Definition job_in (n : nat) (j : Job) : Prop :=
  match j with
  | ResolveThenable outer inner => (outer < n)%nat /\ (inner < n)%nat
  | Reaction p _ => (p < n)%nat
  end.

Definition well_formed (r : Realm) : Prop :=
  Forall (job_in (length (promises r))) (microtasks r)
  /\ Forall (fun t => (captured_promise t.2 < length (promises r))%nat) (timers r)
  /\ Forall (fun P => Forall (fun f => (f < length (promises r))%nat) (followers P))
       (promises r).

(** [names p q]: [q] is one of the two promises of the call that
    returned [p], the returned one and the inner one. *)
Definition names (p q : nat) : bool := (q =? p)%nat || (q =? S p)%nat.

Definition job_names (p : nat) (j : Job) : bool :=
  match j with
  | ResolveThenable outer inner => names p outer || names p inner
  | Reaction q _ => names p q
  end.

Definition timer_names (p : nat) (t : Z * TimerCallback) : bool :=
  names p (captured_promise t.2).

(** The jobs and the timers of the call among those of the realm. *)
Definition own_jobs (p : nat) (r : Realm) : list Job :=
  List.filter (job_names p) (microtasks r).

Definition own_timers (p : nat) (r : Realm) : list (Z * TimerCallback) :=
  List.filter (timer_names p) (timers r).

(** No other promise is followed by a promise of the call. *)
Definition others_apart (p : nat) (r : Realm) : Prop :=
  forall q P, names p q = false -> promises r !! q = Some P ->
              Forall (fun f => names p f = false) (followers P).

(** The four stages of a call of [squareAsync n] that returned [p]:
    waiting to follow the inner promise, following it with the timer
    pending, the inner promise settled with the reaction queued, and
    both promises settled. *)
Definition call_stage (n : number) (p : nat)
    (jobs : list Job) (tms : list (Z * TimerCallback))
    (outer inner : option Promise) : Prop :=
  (jobs = [ResolveThenable p (S p)]
   /\ (exists due, tms = [(due, {| captured_n := n; captured_promise := S p |})])
   /\ outer = Some {| state := Pending; followers := [] |}
   /\ inner = Some {| state := Pending; followers := [] |})
  \/ (jobs = []
      /\ (exists due, tms = [(due, {| captured_n := n; captured_promise := S p |})])
      /\ outer = Some {| state := Pending; followers := [] |}
      /\ inner = Some {| state := Pending; followers := [p] |})
  \/ (jobs = [Reaction p (settled_state n)]
      /\ tms = []
      /\ outer = Some {| state := Pending; followers := [] |}
      /\ inner = Some {| state := settled_state n; followers := [] |})
  \/ (jobs = []
      /\ tms = []
      /\ outer = Some {| state := settled_state n; followers := [] |}
      /\ inner = Some {| state := settled_state n; followers := [] |}).

Definition call_phase (n : number) (p : nat) (r : Realm) : Prop :=
  others_apart p r
  /\ call_stage n p (own_jobs p r) (own_timers p r)
       (promises r !! p) (promises r !! S p).

(** What a job or a timer of another call leaves alone. *)
Definition untouched (p : nat) (r r' : Realm) : Prop :=
  own_jobs p r' = own_jobs p r
  /\ own_timers p r' = own_timers p r
  /\ promises r' !! p = promises r !! p
  /\ promises r' !! S p = promises r !! S p
  /\ others_apart p r'.

(** A realm with a call of [squareAsync(2)] under way. *)
Definition busy_realm : Realm := (squareAsync (num_of_Z 2) settled_realm).2.

(** The realms a program reaches from a fresh one by calls of
    [squareAsync] and turns of the event loop. *)
Inductive reachable : Realm -> Prop :=
  | reach_empty (now : Z) : reachable (empty_realm now)
  | reach_call (n : number) (r : Realm) :
      reachable r -> reachable (squareAsync n r).2
  | reach_turn (r r' : Realm) :
      reachable r -> step r = Some r' -> reachable r'.

(** ** Decimal digits *)

(** The integer a string of decimal digits denotes. *)
Definition digits_value (s : jsstring) : Z :=
  fold_left (fun acc c => acc * 10 + (Z.of_N c - 48)) s 0.

(** A code unit from ["0"] to ["9"]. *)
Definition is_digit (c : code_unit) : Prop := (48 <= c <= 57)%N.

(* ===================================================================== *)
(** * Part II: properties                                                 *)
(* ===================================================================== *)

(** ** The order of numbers *)

Ltac compare_cases :=
  repeat match goal with
    | H : context [Z.compare ?a ?b] |- _ => destruct (Z.compare_spec a b)
    | |- context [Z.compare ?a ?b] => destruct (Z.compare_spec a b)
    | H : context [Pos.compare_cont Eq ?a ?b] |- _ =>
        change (Pos.compare_cont Eq a b) with (Pos.compare a b) in H;
        destruct (Pos.compare_spec a b)
    | |- context [Pos.compare_cont Eq ?a ?b] =>
        change (Pos.compare_cont Eq a b) with (Pos.compare a b);
        destruct (Pos.compare_spec a b)
    end;
  simpl in *; try congruence; try lia.

Lemma num_gt_irrefl (x : number) : num_gt x x = false.
Proof.
  unfold num_gt. destruct x as [s | s | | s m e]; simpl;
    try reflexivity; try (destruct s; reflexivity).
  destruct s; compare_cases.
Qed.

Lemma num_gt_trans (a b c : number) :
  num_gt a b = true -> num_gt b c = true -> num_gt a c = true.
Proof.
  unfold num_gt.
  destruct a as [sa | sa | | sa ma ea], b as [sb | sb | | sb mb eb],
    c as [sc | sc | | sc mc ec]; simpl; try congruence;
    try (destruct sa; simpl; congruence);
    try (destruct sb; simpl; congruence);
    try (destruct sc; simpl; congruence);
    try (destruct sa, sb; simpl; congruence);
    try (destruct sa, sc; simpl; congruence);
    try (destruct sb, sc; simpl; congruence).
  all: destruct sa, sb, sc; simpl; try congruence; intros; compare_cases.
Qed.

(** Among numbers that are not NaN the order is total: what exceeds [a]
    exceeds everything that does not exceed [a]. *)
Lemma num_gt_le_trans (p a q : number) :
  is_NaN q = false ->
  num_gt p a = true -> num_gt q a = false -> num_gt p q = true.
Proof.
  unfold num_gt.
  destruct p as [sp | sp | | sp mp ep], a as [sa | sa | | sa ma ea],
    q as [sq | sq | | sq mq eq]; simpl; try congruence;
    try (destruct sp; simpl; congruence);
    try (destruct sa; simpl; congruence);
    try (destruct sq; simpl; congruence);
    try (destruct sp, sa; simpl; congruence);
    try (destruct sp, sq; simpl; congruence);
    try (destruct sa, sq; simpl; congruence).
  all: destruct sp, sa, sq; simpl; try congruence; intros; compare_cases.
Qed.

(** ** Exact results in binary64 *)

Lemma digits2_pos_bounds (m : positive) :
  2 ^ (Z.pos (digits2_pos m) - 1) <= Z.pos m < 2 ^ Z.pos (digits2_pos m).
Proof.
  induction m as [m IH | m IH |]; simpl digits2_pos; [| | simpl; lia].
  all: rewrite Pos2Z.inj_succ;
    replace (Z.succ (Z.pos (digits2_pos m)) - 1) with (Z.succ (Z.pos (digits2_pos m) - 1)) by lia;
    rewrite !Z.pow_succ_r by lia; lia.
Qed.

Lemma digits2_pos_iter_xO (m k : positive) :
  digits2_pos (Pos.iter xO m k) = (digits2_pos m + k)%positive.
Proof.
  induction k as [| k IH] using Pos.peano_ind.
  - simpl. lia.
  - rewrite Pos.iter_succ. simpl. rewrite IH. lia.
Qed.

Lemma Zpos_iter_xO (m k : positive) :
  Z.pos (Pos.iter xO m k) = Z.pos m * 2 ^ Z.pos k.
Proof.
  induction k as [| k IH] using Pos.peano_ind.
  - simpl. lia.
  - rewrite Pos.iter_succ, Pos2Z.inj_xO, IH, Pos2Z.inj_succ, Z.pow_succ_r by lia. lia.
Qed.

(** A mantissa and exponent in canonical form are not rounded. *)
Lemma binary_round_aux_canonical (s : bool) (m : positive) (e : Z) :
  bounded prec emax m e = true ->
  binary_round_aux prec emax s (Z.pos m) e loc_Exact = S754_finite s m e.
Proof.
  unfold bounded, canonical_mantissa. intros Hb.
  apply andb_true_iff in Hb as [Hc He]. apply Z.eqb_eq in Hc.
  unfold binary_round_aux, shr_fexp. simpl Zdigits2. simpl shr_record_of_loc.
  rewrite Hc, Z.sub_diag. simpl. rewrite Hc, Z.sub_diag. simpl.
  unfold prec, emax in *. rewrite He. reflexivity.
Qed.

(** An integer below [2^53] in size is a number: the literal is not
    rounded. *)
Lemma binary_round_integer (s : bool) (p : positive) :
  Z.pos p < 2 ^ prec ->
  exists m e, binary_round prec emax s p 0 = S754_finite s m e
              /\ e <= 0 /\ Z.pos m = Z.pos p * 2 ^ (- e).
Proof.
  intros Hp. pose proof (digits2_pos_bounds p) as [Hlo _].
  assert (Hd : Z.pos (digits2_pos p) <= prec).
  { destruct (Z_le_gt_dec (Z.pos (digits2_pos p)) prec) as [H | H]; [exact H |].
    exfalso. apply (Z.lt_irrefl (Z.pos p)). eapply Z.lt_le_trans; [exact Hp |].
    eapply Z.le_trans; [| exact Hlo]. apply Z.pow_le_mono_r; lia. }
  unfold binary_round.
  assert (Hfexp : fexp prec emax (Z.pos (digits2_pos p) + 0) = Z.pos (digits2_pos p) - prec)
    by (unfold fexp, emin, prec, emax in *; lia).
  rewrite Hfexp. unfold shl_align.
  destruct (Z.pos (digits2_pos p) - prec - 0) as [| k | k] eqn:Hk; [| lia |].
  - exists p, 0. split; [| split; [lia | simpl; lia]].
    apply binary_round_aux_canonical. unfold bounded, canonical_mantissa.
    rewrite Hfexp. unfold prec, emax in *.
    apply andb_true_iff. split; [apply Z.eqb_eq; lia | reflexivity].
  - exists (Pos.iter xO p k), (Z.pos (digits2_pos p) - prec).
    split; [| split; [lia |]].
    + apply binary_round_aux_canonical. unfold bounded, canonical_mantissa.
      rewrite digits2_pos_iter_xO. unfold fexp, emin, prec, emax in *.
      apply andb_true_iff. split; [apply Z.eqb_eq | apply Z.leb_le]; lia.
    + rewrite Zpos_iter_xO. f_equal. f_equal. lia.
Qed.

Lemma num_to_Z_of_Z (z : Z) :
  - 2 ^ prec < z < 2 ^ prec -> num_to_Z (num_of_Z z) = Some z.
Proof.
  intros Hz. destruct z as [| p | p]; [reflexivity | |].
  - destruct (binary_round_integer false p) as (m & e & Hnum & He & Hm); [lia |].
    unfold num_of_Z, binary_normalize. rewrite Hnum.
    unfold num_to_Z, num_value.
    destruct (Z.leb_spec 0 e) as [H0 | Hneg].
    + replace e with 0 in * by lia. simpl in Hm. f_equal. lia.
    + rewrite Hm, Z_mod_mult, Z.eqb_refl, Z_div_mult; [reflexivity |].
      apply Z.lt_gt, Z.pow_pos_nonneg; lia.
  - destruct (binary_round_integer true p) as (m & e & Hnum & He & Hm); [lia |].
    unfold num_of_Z, binary_normalize. rewrite Hnum.
    unfold num_to_Z, num_value.
    assert (Hopp : Z.neg m = Z.neg p * 2 ^ (- e)) by lia.
    destruct (Z.leb_spec 0 e) as [H0 | Hneg].
    + replace e with 0 in * by lia. simpl in Hopp. f_equal. lia.
    + rewrite Hopp, Z_mod_mult, Z.eqb_refl, Z_div_mult; [reflexivity |].
      apply Z.lt_gt, Z.pow_pos_nonneg; lia.
Qed.

(** Doubling is exact: the exponent of a normal number goes up by one,
    to infinity past the largest exponent, and the mantissa of a
    subnormal number doubles. *)
Lemma num_mul_2_finite (s : bool) (m : positive) (e : Z) :
  bounded prec emax m e = true ->
  num_mul (S754_finite s m e) (num_of_Z 2)
  = if Z.pos (digits2_pos m) =? prec
    then if e + 1 <=? emax - prec then S754_finite s m (e + 1) else S754_infinity s
    else S754_finite s m~0 e.
Proof.
  unfold bounded, canonical_mantissa. intros Hb.
  apply andb_true_iff in Hb as [Hc He]. apply Z.eqb_eq in Hc. apply Z.leb_le in He.
  change (num_of_Z 2) with (S754_finite false 4503599627370496 (-51)).
  unfold num_mul, SFmul. rewrite xorb_false_r, Pos.mul_comm.
  unfold binary_round_aux, shr_fexp. simpl shr_record_of_loc.
  assert (Hdig : Zdigits2 (Z.pos (4503599627370496 * m)) = Z.pos (digits2_pos m) + 52).
  { change (4503599627370496 * m)%positive with (Pos.iter xO m 52).
    unfold Zdigits2. rewrite digits2_pos_iter_xO. lia. }
  rewrite Hdig. unfold fexp, emin, prec, emax in *.
  destruct (Z.eqb_spec (Z.pos (digits2_pos m)) 53) as [Hn | Hs].
  - replace (Z.max (Z.pos (digits2_pos m) + 52 + (e + -51) - 53) (3 - 1024 - 53)
             - (e + -51)) with 52 by lia.
    simpl. change (1 * m)%positive with m. rewrite Hn.
    replace (Z.max (53 + (e + -51 + 52) - 53) (3 - 1024 - 53) - (e + -51 + 52))
      with 0 by lia.
    simpl. replace (e + -51 + 52) with (e + 1) by lia. reflexivity.
  - replace (Z.max (Z.pos (digits2_pos m) + 52 + (e + -51) - 53) (3 - 1024 - 53)
             - (e + -51)) with 51 by lia.
    simpl. change (1 * m)%positive with m. rewrite Pos2Z.inj_succ.
    replace (Z.max (Z.succ (Z.pos (digits2_pos m)) + (e + -51 + 51) - 53)
               (3 - 1024 - 53) - (e + -51 + 51)) with 0 by lia.
    simpl. replace (e + -51 + 51) with e by lia.
    change (2 * m)%positive with (m~0)%positive.
    destruct (Z.leb_spec e (1024 - 53)); [reflexivity | lia].
Qed.

Lemma num_mul_2_twice (n : number) :
  is_number n = true -> twice n (num_mul n (num_of_Z 2)).
Proof.
  destruct n as [s | s | | s m e]; intros Hn; unfold twice.
  - right; left. destruct s; reflexivity.
  - destruct s; reflexivity.
  - reflexivity.
  - simpl in Hn. rewrite (num_mul_2_finite s m e Hn).
    change (num_value (S754_finite s m e))
      with (Some (if s then Z.neg m else Z.pos m, e)).
    unfold bounded, canonical_mantissa in Hn.
    apply andb_true_iff in Hn as [_ He]. apply Z.leb_le in He.
    destruct (Z.eqb_spec (Z.pos (digits2_pos m)) prec) as [Hd | Hd].
    + destruct (Z.leb_spec (e + 1) (emax - prec)) as [Hfit | Hover].
      * left. reflexivity.
      * right; right. pose proof (digits2_pos_bounds m) as [Hlo _].
        rewrite Hd in Hlo. unfold prec, emax in *.
        replace e with 971 in * by lia.
        split; [destruct s; reflexivity |]. split; [lia |].
        replace (Z.abs (if s then Z.neg m else Z.pos m)) with (Z.pos m)
          by (destruct s; reflexivity).
        change (2 ^ 1024) with (2 * 2 ^ (53 - 1) * 2 ^ 971).
        apply Z.mul_le_mono_nonneg_r; lia.
    + right; left. destruct s; reflexivity.
Qed.

(** ** The store of arrays *)

Section ArrayFacts.
Context {T : Type}.
Implicit Types (h : gmap ref (list T)) (elems : list T).

Lemma new_array_fresh h elems : (new_array h elems).1 ∉ dom h.
Proof. apply is_fresh. Qed.

Lemma new_array_lookup h elems :
  (new_array h elems).2 !! (new_array h elems).1 = Some elems.
Proof. apply lookup_insert_eq. Qed.

Lemma new_array_other h elems (l : ref) :
  l ∈ dom h -> (new_array h elems).2 !! l = h !! l.
Proof.
  intros Hl. apply lookup_insert_ne. intros Heq.
  apply (new_array_fresh h elems). simpl. rewrite Heq. exact Hl.
Qed.

Lemma extends_refl h : extends h h.
Proof. intros l _. reflexivity. Qed.

Lemma extends_dom h0 h (l : ref) : extends h0 h -> l ∈ dom h0 -> l ∈ dom h.
Proof.
  intros Hext Hl. apply elem_of_dom. rewrite (Hext l Hl).
  apply elem_of_dom. exact Hl.
Qed.

Lemma extends_new_array h0 h elems :
  extends h0 h -> extends h0 (new_array h elems).2.
Proof.
  intros Hext l Hl. rewrite new_array_other by (eapply extends_dom; eassumption).
  apply Hext. exact Hl.
Qed.

Lemma new_array_fresh_extends h0 h elems :
  extends h0 h -> (new_array h elems).1 ∉ dom h0.
Proof.
  intros Hext Hin. apply (new_array_fresh h elems).
  eapply extends_dom; eassumption.
Qed.
End ArrayFacts.

(** ** formatString *)

(** C3. With the flag [false] the result is the lower-case form of the
    input; with the flag [true], and with the flag omitted, it is the
    upper-case form. *)
Theorem formatString_case (toLowerCase toUpperCase : jsstring -> jsstring)
    (s : jsstring) :
  formatString toLowerCase toUpperCase s (Some false) = toLowerCase s
  /\ formatString toLowerCase toUpperCase s (Some true) = toUpperCase s
  /\ formatString toLowerCase toUpperCase s None = toUpperCase s.
Proof. repeat split. Qed.

Example formatString_ascii :
  formatString (map ascii_lower) (map ascii_upper) (lit "Hello, World") None
  = lit "HELLO, WORLD"
  /\ formatString (map ascii_lower) (map ascii_upper) (lit "Hello, World") (Some true)
     = lit "HELLO, WORLD"
  /\ formatString (map ascii_lower) (map ascii_upper) (lit "Hello, World") (Some false)
     = lit "hello, world".
Proof. repeat split. Qed.

(** ** filterByRating *)

Lemma filterByRating_cons (item : RatedItem) (R : list RatedItem) :
  filterByRating (item :: R)
  = if rating_at_least_4 item then item :: filterByRating R else filterByRating R.
Proof. reflexivity. Qed.

Lemma filterByRating_sublist (R : list RatedItem) : sublist (filterByRating R) R.
Proof.
  induction R as [| item R IH]; [constructor |].
  rewrite filterByRating_cons. destruct (rating_at_least_4 item).
  - apply sublist_skip. exact IH.
  - apply sublist_cons. exact IH.
Qed.

Lemma filterByRating_all (R : list RatedItem) :
  Forall (fun item => rating_at_least_4 item = true) (filterByRating R).
Proof.
  induction R as [| item R IH]; [constructor |].
  rewrite filterByRating_cons. destruct (rating_at_least_4 item) eqn:E.
  - constructor; assumption.
  - exact IH.
Qed.

Lemma filterByRating_greatest (R l : list RatedItem) :
  sublist l R ->
  Forall (fun item => rating_at_least_4 item = true) l ->
  sublist l (filterByRating R).
Proof.
  induction 1 as [| item l R Hsub IH | item l R Hsub IH]; intros Hall.
  - constructor.
  - apply Forall_cons in Hall as [Hitem Hall].
    rewrite filterByRating_cons, Hitem. apply sublist_skip. apply IH. exact Hall.
  - rewrite filterByRating_cons. destruct (rating_at_least_4 item).
    + apply sublist_cons. apply IH. exact Hall.
    + apply IH. exact Hall.
Qed.

Lemma filterByRating_elem (R : list RatedItem) (item : RatedItem) :
  item ∈ filterByRating R <-> item ∈ R /\ rating_at_least_4 item = true.
Proof.
  unfold filterByRating. rewrite !list_elem_of_In. apply filter_In.
Qed.

Lemma filterByRating_fixed (l : list RatedItem) :
  Forall (fun item => rating_at_least_4 item = true) l -> filterByRating l = l.
Proof.
  induction 1 as [| item l Hitem Hall IH]; [reflexivity |].
  rewrite filterByRating_cons, Hitem, IH. reflexivity.
Qed.

Lemma filterByRating_call_spec (h : gmap ref (list RatedItem)) (items : ref)
    (R : list RatedItem) :
  h !! items = Some R ->
  exists r h', filterByRating_call h items = Some (r, h')
               /\ (r ∉ dom h)
               /\ h' !! r = Some (filterByRating R)
               /\ extends h h'.
Proof.
  intros Hitems. unfold filterByRating_call, Array_filter. rewrite Hitems.
  exists (new_array h (filterByRating R)).1, (new_array h (filterByRating R)).2.
  split; [reflexivity |]. split; [apply new_array_fresh |].
  split; [apply new_array_lookup |].
  apply extends_new_array, extends_refl.
Qed.

(** C4. The array [filterByRating] returns holds exactly the
    subsequence of the records rated at least 4: it is a subsequence of
    the input in the original order, all its records are rated at least 4,
    it contains every subsequence of the input with that property, and so
    a record is in it exactly when it is in the input and rated at least 4.
    The empty list gives the empty list.  The call allocates a new array
    for the result and leaves every array of the store, the input
    included, as it was. *)
Theorem filterByRating_subsequence (R : list RatedItem) :
  sublist (filterByRating R) R
  /\ Forall (fun item => num_ge (rating item) (num_of_Z 4) = true) (filterByRating R)
  /\ (forall l, sublist l R ->
                Forall (fun item => num_ge (rating item) (num_of_Z 4) = true) l ->
                sublist l (filterByRating R))
  /\ (forall item, item ∈ filterByRating R
                   <-> item ∈ R /\ num_ge (rating item) (num_of_Z 4) = true)
  /\ filterByRating [] = []
  /\ (forall h items,
        h !! items = Some R ->
        exists r h', filterByRating_call h items = Some (r, h')
                     /\ r <> items
                     /\ h' !! r = Some (filterByRating R)
                     /\ h' !! items = Some R
                     /\ extends h h').
Proof.
  split; [apply filterByRating_sublist |].
  split; [apply filterByRating_all |].
  split; [apply filterByRating_greatest |].
  split; [apply filterByRating_elem |].
  split; [reflexivity |].
  intros h items Hitems.
  destruct (filterByRating_call_spec h items R Hitems) as (r & h' & Hcall & Hnew & Hr & Hext).
  assert (Hdom : items ∈ dom h) by (apply elem_of_dom; rewrite Hitems; eauto).
  exists r, h'. split; [exact Hcall |].
  split; [(intros ->; contradiction) |].
  split; [exact Hr |].
  split; [rewrite (Hext items Hdom); exact Hitems | exact Hext].
Qed.

Lemma filterByRating_subsequence_witness :
  ({[ 1%positive := [item_good; item_poor; item_fair] ]} : gmap ref (list RatedItem))
    !! 1%positive = Some [item_good; item_poor; item_fair]
  /\ exists r h',
       filterByRating_call {[ 1%positive := [item_good; item_poor; item_fair] ]} 1%positive
       = Some (r, h')
       /\ r <> 1%positive
       /\ h' !! r = Some (filterByRating [item_good; item_poor; item_fair])
       /\ h' !! 1%positive = Some [item_good; item_poor; item_fair]
       /\ extends {[ 1%positive := [item_good; item_poor; item_fair] ]} h'.
Proof.
  split; [reflexivity |].
  destruct (filterByRating_subsequence [item_good; item_poor; item_fair])
    as (_ & _ & _ & _ & _ & Hcall).
  apply Hcall. reflexivity.
Defined.

Example filterByRating_run :
  filterByRating [item_good; item_poor; item_fair] = [item_good; item_fair]
  /\ filterByRating
       [ {| title := lit "unrated"; rating := S754_nan |};
         {| title := lit "nearly"; rating := SFdiv prec emax (num_of_Z 39) (num_of_Z 10) |} ]
     = [].
Proof. split; reflexivity. Qed.

(** C10. [filterByRating] is idempotent: filtering its result again
    changes nothing; on the store, a second call returns another new array
    with the elements of the first result. *)
Theorem filterByRating_idempotent (R : list RatedItem) :
  filterByRating (filterByRating R) = filterByRating R
  /\ (forall h items,
        h !! items = Some R ->
        exists r1 h1 r2 h2,
          filterByRating_call h items = Some (r1, h1)
          /\ filterByRating_call h1 r1 = Some (r2, h2)
          /\ r2 <> r1
          /\ h2 !! r2 = Some (filterByRating R)
          /\ h2 !! r1 = Some (filterByRating R)).
Proof.
  assert (Hidem : filterByRating (filterByRating R) = filterByRating R)
    by apply filterByRating_fixed, filterByRating_all.
  split; [exact Hidem |].
  intros h items Hitems.
  destruct (filterByRating_call_spec h items R Hitems) as (r1 & h1 & Hc1 & _ & Hr1 & _).
  destruct (filterByRating_call_spec h1 r1 _ Hr1) as (r2 & h2 & Hc2 & Hnew & Hr2 & Hext).
  assert (Hdom : r1 ∈ dom h1) by (apply elem_of_dom; rewrite Hr1; eauto).
  exists r1, h1, r2, h2. split; [exact Hc1 |]. split; [exact Hc2 |].
  split; [(intros ->; contradiction) |].
  split; [rewrite Hr2, Hidem; reflexivity |].
  rewrite (Hext r1 Hdom). exact Hr1.
Qed.

Lemma filterByRating_idempotent_witness :
  ({[ 1%positive := [item_good; item_poor; item_fair] ]} : gmap ref (list RatedItem))
    !! 1%positive = Some [item_good; item_poor; item_fair]
  /\ exists r1 h1 r2 h2,
       filterByRating_call {[ 1%positive := [item_good; item_poor; item_fair] ]} 1%positive
       = Some (r1, h1)
       /\ filterByRating_call h1 r1 = Some (r2, h2)
       /\ r2 <> r1
       /\ h2 !! r2 = Some (filterByRating [item_good; item_poor; item_fair])
       /\ h2 !! r1 = Some (filterByRating [item_good; item_poor; item_fair]).
Proof.
  split; [reflexivity |].
  destruct (filterByRating_idempotent [item_good; item_poor; item_fair]) as [_ Hcall].
  apply Hcall. reflexivity.
Defined.

(** ** concatenateArrays *)

Lemma concat_loop_elems {T : Type} (arrays : list (list T)) (result : list T) :
  fold_left (fun result array => result ++ array) arrays result
  = result ++ concat arrays.
Proof.
  revert result. induction arrays as [| a arrays IH]; intros result; simpl.
  - rewrite app_nil_r. reflexivity.
  - rewrite IH, <- app_assoc. reflexivity.
Qed.

Lemma concatenateArrays_concat {T : Type} (arrays : list (list T)) :
  concatenateArrays arrays = concat arrays.
Proof. unfold concatenateArrays. rewrite concat_loop_elems. reflexivity. Qed.

(** The start of the [k]-th input array inside the result. *)
Lemma concat_lookup {T : Type} (arrays : list (list T)) (k j : nat) (a : list T) (x : T) :
  arrays !! k = Some a -> a !! j = Some x ->
  concat arrays !! (list_sum (map length (take k arrays)) + j)%nat = Some x.
Proof.
  revert k. induction arrays as [| b arrays IH]; intros k Hk Hj.
  - rewrite lookup_nil in Hk. discriminate.
  - destruct k as [| k]; simpl in *.
    + injection Hk as ->. apply lookup_app_l_Some. exact Hj.
    + rewrite lookup_app_r by lia.
      replace (length b + list_sum (map length (take k arrays)) + j - length b)%nat
        with (list_sum (map length (take k arrays)) + j)%nat by lia.
      apply IH; assumption.
Qed.

(** The loop on the store: from a [result] array holding [acc], over
    arrays of the caller's store [h0]. *)
Lemma concat_loop_call {T : Type} (h0 : gmap ref (list T)) (refs : list ref)
    (arrays : list (list T)) :
  Forall2 (fun r a => h0 !! r = Some a) refs arrays ->
  forall (h : gmap ref (list T)) (result : ref) (acc : list T),
    extends h0 h -> result ∉ dom h0 -> h !! result = Some acc ->
    exists r h',
      fold_left
        (fun acc array =>
           match acc with
           | Some (result, h') => Array_concat h' result array
           | None => None
           end)
        refs (Some (result, h)) = Some (r, h')
      /\ (r ∉ dom h0)
      /\ h' !! r = Some (fold_left (fun result array => result ++ array) arrays acc)
      /\ extends h0 h'.
Proof.
  induction 1 as [| r a refs arrays Hr Hrest IH]; intros h result acc Hext Hnew Hres.
  - exists result, h. simpl. auto.
  - simpl. unfold Array_concat at 2. rewrite Hres.
    assert (Hdom : r ∈ dom h0) by (apply elem_of_dom; rewrite Hr; eauto).
    rewrite (Hext r Hdom), Hr.
    apply (IH (new_array h (acc ++ a)).2 (new_array h (acc ++ a)).1 (acc ++ a)).
    + apply extends_new_array. exact Hext.
    + apply new_array_fresh_extends. exact Hext.
    + apply new_array_lookup.
Qed.

(** C5. [concatenateArrays] returns the elements of the first array
    followed by those of the second, and so on: the result is the
    concatenation of the inputs, its length is the sum of their lengths,
    and the [j]-th element of the [k]-th input sits in the result after
    all elements of the inputs before it.  With no input the result is
    empty.  The call returns an array that is new, and leaves the arrays
    of the caller as they were. *)
Theorem concatenateArrays_elements {T : Type} (arrays : list (list T)) :
  concatenateArrays arrays = concat arrays
  /\ length (concatenateArrays arrays) = list_sum (map length arrays)
  /\ (forall k j a x,
        arrays !! k = Some a -> a !! j = Some x ->
        concatenateArrays arrays !! (list_sum (map length (take k arrays)) + j)%nat
        = Some x)
  /\ concatenateArrays (@nil (list T)) = []
  /\ (forall h refs,
        Forall2 (fun r a => h !! r = Some a) refs arrays ->
        exists r h', concatenateArrays_call h refs = Some (r, h')
                     /\ (r ∉ dom h)
                     /\ h' !! r = Some (concatenateArrays arrays)
                     /\ extends h h').
Proof.
  split; [apply concatenateArrays_concat |].
  split; [rewrite concatenateArrays_concat; apply length_concat |].
  split.
  { intros k j a x Hk Hj. rewrite concatenateArrays_concat.
    apply concat_lookup with (a := a); assumption. }
  split; [reflexivity |].
  intros h refs Hrefs. unfold concatenateArrays_call, concatenateArrays.
  apply (concat_loop_call h refs arrays Hrefs
           (new_array h []).2 (new_array h []).1 []).
  - apply extends_new_array, extends_refl.
  - apply new_array_fresh.
  - apply new_array_lookup.
Qed.

Lemma concatenateArrays_elements_witness :
  Forall2 (fun r a => ({[ 1%positive := [7; 8]; 2%positive := [9] ]} : gmap ref (list Z)) !! r = Some a)
    [1%positive; 2%positive; 1%positive] [[7; 8]; [9]; [7; 8]]
  /\ exists r h',
       concatenateArrays_call {[ 1%positive := [7; 8]; 2%positive := [9] ]}
         [1%positive; 2%positive; 1%positive] = Some (r, h')
       /\ (r ∉ dom ({[ 1%positive := [7; 8]; 2%positive := [9] ]} : gmap ref (list Z)))
       /\ h' !! r = Some (concatenateArrays [[7; 8]; [9]; [7; 8]])
       /\ extends {[ 1%positive := [7; 8]; 2%positive := [9] ]} h'.
Proof.
  assert (H : Forall2
                (fun r a => ({[ 1%positive := [7; 8]; 2%positive := [9] ]}
                             : gmap ref (list Z)) !! r = Some a)
                [1%positive; 2%positive; 1%positive] [[7; 8]; [9]; [7; 8]])
    by (repeat constructor).
  split; [exact H |].
  destruct (concatenateArrays_elements [[7; 8]; [9]; [7; 8]]) as (_ & _ & _ & _ & Hcall).
  apply Hcall. exact H.
Defined.

Example concatenateArrays_three (A B C : list Z) :
  concatenateArrays [A; B; C] = A ++ B ++ C
  /\ length (concatenateArrays [A; B; C]) = (length A + length B + length C)%nat.
Proof.
  rewrite concatenateArrays_concat. simpl. rewrite app_nil_r.
  split; [reflexivity |]. rewrite !length_app. lia.
Qed.

Example concatenateArrays_run :
  concatenateArrays [[1; 2]; []; [3]; [4; 5]] = [1; 2; 3; 4; 5].
Proof. reflexivity. Qed.

(** The same array passed twice is read twice and not changed. *)
Example concatenateArrays_call_alias :
  let h : gmap ref (list Z) := {[ 1%positive := [7; 8] ]} in
  exists r h', concatenateArrays_call h [1%positive; 1%positive] = Some (r, h')
               /\ h' !! r = Some [7; 8; 7; 8]
               /\ h' !! 1%positive = Some [7; 8].
Proof. eexists _, _. vm_compute. repeat split. Qed.

(** ** Vehicle and Car *)

(** C8. A [Car] built from a make, a year and a model writes the line
    ["Make: <make>, Year: <year>"] through [getInfo], exactly as a
    [Vehicle] of the same make and year does, and the line
    ["Model: <model>"] through [getModel]; the first line does not depend
    on the model, nor the second on the make and the year. *)
Theorem Car_display (m : jsstring) (y : number) (d : jsstring) (out : console) :
  Car_getInfo (new_Car m y d) out
  = out ++ [lit "Make: " ++ m ++ lit ", Year: " ++ Number_toString y]
  /\ Car_getInfo (new_Car m y d) out = Vehicle_getInfo (new_Vehicle m y) out
  /\ Car_getModel (new_Car m y d) out = out ++ [lit "Model: " ++ d]
  /\ (forall d', Car_getInfo (new_Car m y d') out = Car_getInfo (new_Car m y d) out)
  /\ (forall m' y', Car_getModel (new_Car m' y' d) out = Car_getModel (new_Car m y d) out)
  /\ Car_getInfo (new_Car (lit "Toyota") (num_of_Z 2020) (lit "Corolla")) []
     = [lit "Make: Toyota, Year: 2020"]
  /\ Car_getModel (new_Car (lit "Toyota") (num_of_Z 2020) (lit "Corolla")) []
     = [lit "Model: Corolla"].
Proof.
  repeat split.
Qed.

Example Car_both_lines :
  Car_getModel (new_Car (lit "Toyota") (num_of_Z 2020) (lit "Corolla"))
    (Car_getInfo (new_Car (lit "Toyota") (num_of_Z 2020) (lit "Corolla")) [])
  = [lit "Make: Toyota, Year: 2020"; lit "Model: Corolla"].
Proof. vm_compute. reflexivity. Qed.

(** ** processValue *)

(** C6. For a string [processValue] returns its length, the count of
    its code units, and for a number the number multiplied by 2.  Both
    results are exact: the length is below [2^53] and is not rounded, and
    the product is twice the number, exactly. *)
Theorem processValue_cases :
  (forall s, processValue (VString s) = num_of_Z (Z.of_nat (length s)))
  /\ (forall s, Z.of_nat (length s) < 2 ^ prec ->
                num_to_Z (processValue (VString s)) = Some (Z.of_nat (length s)))
  /\ (forall n, processValue (VNumber n) = num_mul n (num_of_Z 2))
  /\ (forall n, is_number n = true -> twice n (processValue (VNumber n)))
  /\ processValue (VString (lit "hello")) = num_of_Z 5
  /\ processValue (VNumber (num_of_Z 10)) = num_of_Z 20.
Proof.
  split; [reflexivity |].
  split; [intros s Hs; apply num_to_Z_of_Z; lia |].
  split; [reflexivity |].
  split; [intros n Hn; apply num_mul_2_twice; exact Hn |].
  split; reflexivity.
Qed.

Example processValue_examples :
  num_to_Z (processValue (VString (lit "hello"))) = Some 5
  /\ num_to_Z (processValue (VNumber (num_of_Z 10))) = Some 20
  /\ processValue (VString []) = S754_zero false
  /\ processValue (VNumber S754_nan) = S754_nan
  /\ processValue (VNumber (S754_finite false 9007199254740991 971))
     = S754_infinity false.
Proof. repeat split. Qed.

Lemma processValue_cases_witness :
  Z.of_nat (length (lit "hello")) < 2 ^ prec
  /\ is_number (num_of_Z 10) = true
  /\ num_to_Z (processValue (VString (lit "hello"))) = Some 5
  /\ twice (num_of_Z 10) (processValue (VNumber (num_of_Z 10))).
Proof.
  destruct processValue_cases as (_ & Hlen & _ & Htwice & _).
  split; [reflexivity |]. split; [reflexivity |].
  split; [apply (Hlen (lit "hello")); reflexivity | apply Htwice; reflexivity].
Defined.

(** ** getMostExpensiveProduct *)

Lemma scan_first_greatest (l pre : list Product) (acc : Product) (i : nat) :
  Forall comparable (pre ++ l) ->
  first_greatest pre i acc ->
  exists i', first_greatest (pre ++ l) i' (fold_left scan_step l acc).
Proof.
  revert pre acc i.
  induction l as [| p l IH]; intros pre acc i Hcmp Hacc.
  - rewrite app_nil_r. exists i. exact Hacc.
  - simpl fold_left. unfold scan_step at 2.
    replace (pre ++ p :: l) with ((pre ++ [p]) ++ l) in *
      by (rewrite <- app_assoc; reflexivity).
    destruct Hacc as (Hi & Hmax & Hfirst).
    assert (Hpre : Forall comparable pre).
    { apply Forall_app in Hcmp as [Hcmp _]. apply Forall_app in Hcmp as [Hcmp _].
      exact Hcmp. }
    destruct (num_gt (price p) (price acc)) eqn:Hgt.
    + apply (IH (pre ++ [p]) p (length pre) Hcmp).
      split; [| split].
      * apply list_lookup_middle. reflexivity.
      * intros q Hq. apply elem_of_app in Hq as [Hq | Hq].
        -- destruct (num_gt (price q) (price p)) eqn:Hqp; [| reflexivity].
           rewrite <- (Hmax q Hq). symmetry.
           apply (num_gt_trans _ (price p)); assumption.
        -- apply list_elem_of_singleton in Hq as ->. apply num_gt_irrefl.
      * intros j q Hj Hq. rewrite lookup_app_l in Hq by exact Hj.
        apply (num_gt_le_trans _ (price acc)).
        -- rewrite Forall_forall in Hpre. apply Hpre.
           eapply list_elem_of_lookup_2; eassumption.
        -- exact Hgt.
        -- apply Hmax. eapply list_elem_of_lookup_2; eassumption.
    + apply (IH (pre ++ [p]) acc i Hcmp).
      split; [| split].
      * apply lookup_app_l_Some. exact Hi.
      * intros q Hq. apply elem_of_app in Hq as [Hq | Hq].
        -- apply Hmax. exact Hq.
        -- apply list_elem_of_singleton in Hq as ->. exact Hgt.
      * intros j q Hj Hq. apply lookup_lt_Some in Hi.
        rewrite lookup_app_l in Hq by lia.
        apply (Hfirst j q Hj Hq).
Qed.

(** The scan, step by step, whatever the prices: one record is the
    maximum, and a further record replaces the maximum only when its
    price is strictly greater. *)
Lemma getMostExpensiveProduct_singleton (p : Product) :
  getMostExpensiveProduct [p] = Some p.
Proof. simpl. unfold scan_step. rewrite num_gt_irrefl. reflexivity. Qed.

Lemma getMostExpensiveProduct_snoc (l : list Product) (p m : Product) :
  getMostExpensiveProduct l = Some m ->
  getMostExpensiveProduct (l ++ [p])
  = Some (if num_gt (price p) (price m) then p else m).
Proof.
  destruct l as [| first rest]; [discriminate |].
  simpl. intros [= <-]. rewrite fold_left_app. reflexivity.
Qed.

(** C1. [getMostExpensiveProduct] returns [null] for the empty list, and
    for a non-empty list of records with comparable prices it returns the
    record of the strictly greatest price of the left-to-right scan: no
    record of the list has a greater price, and every record before it has
    a strictly smaller one, so that among records of equal greatest price
    the first wins. *)
Theorem getMostExpensiveProduct_first_greatest (products : list Product) :
  Forall comparable products ->
  (products = [] -> getMostExpensiveProduct products = None)
  /\ (products <> [] ->
      exists i r, getMostExpensiveProduct products = Some r
                  /\ first_greatest products i r).
Proof.
  intros Hcmp. split.
  - intros ->. reflexivity.
  - intros Hne. destruct products as [| first rest]; [congruence |].
    simpl. unfold scan_step at 2. rewrite num_gt_irrefl.
    destruct (scan_first_greatest rest [first] first 0 Hcmp) as [i Hi].
    + split; [reflexivity | split].
      * intros p Hp. apply list_elem_of_singleton in Hp as ->. apply num_gt_irrefl.
      * intros j p Hj. lia.
    + exists i, (fold_left scan_step rest first). split; [reflexivity | exact Hi].
Qed.

Lemma getMostExpensiveProduct_first_greatest_witness :
  Forall comparable [product_A; product_B; product_C]
  /\ exists i r,
       getMostExpensiveProduct [product_A; product_B; product_C] = Some r
       /\ first_greatest [product_A; product_B; product_C] i r.
Proof.
  assert (H : Forall comparable [product_A; product_B; product_C])
    by (repeat constructor).
  split; [exact H |].
  apply (getMostExpensiveProduct_first_greatest [product_A; product_B; product_C] H).
  discriminate.
Defined.

Example getMostExpensiveProduct_tie :
  getMostExpensiveProduct [product_A; product_B; product_C] = Some product_B.
Proof. reflexivity. Qed.

Example getMostExpensiveProduct_empty : getMostExpensiveProduct [] = None.
Proof. reflexivity. Qed.

(** A NaN price is outside the order: it is never exceeded and exceeds
    nothing, so a NaN in first place is returned whatever follows. *)
Example getMostExpensiveProduct_NaN_first :
  getMostExpensiveProduct [ {| name := lit "N"; price := S754_nan |}; product_A ]
  = Some {| name := lit "N"; price := S754_nan |}.
Proof. reflexivity. Qed.

(** ** getDayType *)

(** C7. [getDayType] gives a label for each of the seven days:
    ["Weekend"] exactly for Saturday and Sunday, ["Weekday"] exactly for
    the five others. *)
Theorem getDayType_weekend (d : Day) :
  (getDayType d = lit "Weekend" <-> d = Saturday \/ d = Sunday)
  /\ (getDayType d = lit "Weekday"
      <-> d = Monday \/ d = Tuesday \/ d = Wednesday \/ d = Thursday \/ d = Friday)
  /\ (getDayType d = lit "Weekend" \/ getDayType d = lit "Weekday").
Proof.
  destruct d; vm_compute; repeat split; intros; auto 6;
    repeat match goal with H : _ \/ _ |- _ => destruct H end; discriminate.
Qed.

Example getDayType_examples :
  getDayType Saturday = lit "Weekend"
  /\ getDayType Sunday = lit "Weekend"
  /\ getDayType Monday = lit "Weekday".
Proof. repeat split. Qed.

(** ** squareAsync *)

Lemma run_idle (k : nat) (r : Realm) : step r = None -> run k r = r.
Proof. intros Hidle. destruct k; simpl; [| rewrite Hidle]; reflexivity. Qed.

Lemma run_add (a b : nat) (r : Realm) : run (a + b) r = run b (run a r).
Proof.
  revert r. induction a as [| a IH]; intros r; simpl; [reflexivity |].
  destruct (step r) eqn:Hstep; [apply IH |].
  symmetry. apply run_idle. exact Hstep.
Qed.

(** The promise the call returns, turn by turn: it is pending when the
    call returns and through the microtask that makes it follow the inner
    promise, the timer settles the inner promise, and the reaction that
    follows hands the outcome on; then nothing is left to run. *)
Lemma squareAsync_turns (n : number) (now : Z) :
  let outcome :=
    if num_lt n (num_of_Z 0)
    then Rejected {| message := lit "Negative number not allowed" |}
    else Fulfilled (num_mul n n) in
  exists r, squareAsync n (empty_realm now) = (Normal 0%nat, r)
    /\ promise_state r 0 = Some Pending
    /\ promise_state (run 1 r) 0 = Some Pending
    /\ promise_state (run 2 r) 0 = Some Pending
    /\ promise_state (run 3 r) 0 = Some outcome
    /\ step (run 3 r) = None
    /\ clock (run 3 r) = now + 1000.
Proof.
  eexists. split; [reflexivity |].
  split; [reflexivity |]. split; [reflexivity |].
  cbn [run step squareAsync new_promise setTimeout enqueue empty_realm
       insert_timer promises microtasks timers clock length app
       run_job follow lookup list_lookup list_insert insert
       state followers].
  unfold squareAsync_timeout. cbn [captured_n captured_promise].
  destruct (num_lt n (num_of_Z 0));
    (split; [reflexivity |]); (split; [reflexivity |]);
    (split; [reflexivity |]); cbn; lia.
Qed.

(** The state of the returned promise after any number of turns is one
    of the four of [squareAsync_turns]. *)
Lemma squareAsync_any_turn (n : number) (now : Z) (k : nat) :
  exists r, squareAsync n (empty_realm now) = (Normal 0%nat, r)
    /\ (promise_state (run k r) 0 = Some Pending
        \/ promise_state (run k r) 0 = promise_state (run 3 r) 0).
Proof.
  destruct (squareAsync_turns n now) as (r & Hcall & H0 & H1 & H2 & _ & Hidle & _).
  exists r. split; [exact Hcall |].
  destruct k as [| [| [| k]]]; auto.
  right. replace (S (S (S k))) with (3 + k)%nat by reflexivity.
  rewrite run_add, run_idle; [reflexivity | exact Hidle].
Qed.

(** C2, as the code has it.  For every number [n] the call returns a
    promise at once, without throwing, and the promise is still pending
    then.  After three turns of the event loop, one second later, nothing
    is left to run and the promise is settled: fulfilled with [n * n]
    when [n < 0] is false, and never rejected; rejected with an [Error]
    whose message is ["Negative number not allowed"] when [n < 0], and
    never fulfilled. *)
Theorem squareAsync_settles (n : number) (now : Z) :
  exists p r,
    squareAsync n (empty_realm now) = (Normal p, r)
    /\ promise_state r p = Some Pending
    /\ step (run 3 r) = None
    /\ clock (run 3 r) = now + 1000
    /\ (num_lt n (num_of_Z 0) = false ->
        promise_state (run 3 r) p = Some (Fulfilled (num_mul n n))
        /\ forall k e, promise_state (run k r) p <> Some (Rejected e))
    /\ (num_lt n (num_of_Z 0) = true ->
        promise_state (run 3 r) p
        = Some (Rejected {| message := lit "Negative number not allowed" |})
        /\ forall k v, promise_state (run k r) p <> Some (Fulfilled v)).
Proof.
  destruct (squareAsync_turns n now) as (r & Hcall & H0 & _ & _ & H3 & Hidle & Hclock).
  exists 0%nat, r. split; [exact Hcall |]. split; [exact H0 |].
  split; [exact Hidle |].
  split; [exact Hclock |].
  split; intros Hneg; rewrite Hneg in H3; (split; [exact H3 |]); intros k x Hk;
    destruct (squareAsync_any_turn n now k) as (r' & Hcall' & [Hp | Hs]);
    rewrite Hcall in Hcall'; injection Hcall' as <-; congruence.
Qed.

Lemma squareAsync_settles_witness :
  num_lt (num_of_Z 5) (num_of_Z 0) = false
  /\ num_lt (num_of_Z (-3)) (num_of_Z 0) = true
  /\ (exists p r,
        squareAsync (num_of_Z 5) (empty_realm 0) = (Normal p, r)
        /\ promise_state (run 3 r) p = Some (Fulfilled (num_of_Z 25)))
  /\ (exists p r,
        squareAsync (num_of_Z (-3)) (empty_realm 0) = (Normal p, r)
        /\ promise_state (run 3 r) p
           = Some (Rejected {| message := lit "Negative number not allowed" |})).
Proof.
  split; [reflexivity |]. split; [reflexivity |]. split.
  - destruct (squareAsync_settles (num_of_Z 5) 0)
      as (p & r & Hcall & _ & _ & _ & Hpos & _).
    exists p, r. split; [exact Hcall |]. apply Hpos. reflexivity.
  - destruct (squareAsync_settles (num_of_Z (-3)) 0)
      as (p & r & Hcall & _ & _ & _ & _ & Hneg).
    exists p, r. split; [exact Hcall |]. apply Hneg. reflexivity.
Defined.

(** The message of the rejection differs from the all-lowercase one in
    its first letter. *)
Lemma squareAsync_message_counterexample :
  num_lt (num_of_Z (-3)) (num_of_Z 0) = true
  /\ exists p r,
       squareAsync (num_of_Z (-3)) (empty_realm 0) = (Normal p, r)
       /\ step (run 3 r) = None
       /\ promise_state (run 3 r) p
          = Some (Rejected {| message := lit "Negative number not allowed" |})
       /\ promise_state (run 3 r) p
          <> Some (Rejected {| message := lit "negative number not allowed" |}).
Proof.
  split; [reflexivity |].
  eexists _, _. split; [reflexivity |]. split; [reflexivity |].
  split; [reflexivity |]. vm_compute. discriminate.
Qed.

(** C9. Zero is not below zero: [squareAsync(0)] is fulfilled with 0 and
    never rejected. *)
Theorem squareAsync_zero (now : Z) :
  num_lt (num_of_Z 0) (num_of_Z 0) = false
  /\ exists p r,
       squareAsync (num_of_Z 0) (empty_realm now) = (Normal p, r)
       /\ step (run 3 r) = None
       /\ promise_state (run 3 r) p = Some (Fulfilled (num_of_Z 0))
       /\ (forall k e, promise_state (run k r) p <> Some (Rejected e)).
Proof.
  split; [reflexivity |].
  destruct (squareAsync_turns (num_of_Z 0) now) as (r & Hcall & _ & _ & _ & H3 & Hidle & _).
  exists 0%nat, r. split; [exact Hcall |]. split; [exact Hidle |].
  change (promise_state (run 3 r) 0 = Some (Fulfilled (num_of_Z 0))) in H3.
  split; [exact H3 |]. intros k e Hk.
  destruct (squareAsync_any_turn (num_of_Z 0) now k) as (r' & Hcall' & [Hp | Hs]);
    rewrite Hcall in Hcall'; injection Hcall' as <-; congruence.
Qed.

(** The negative zero is not below zero either, and its square is the
    positive zero. *)
Example squareAsync_negative_zero :
  exists p r,
    squareAsync (S754_zero true) (empty_realm 0) = (Normal p, r)
    /\ promise_state (run 3 r) p = Some (Fulfilled (S754_zero false)).
Proof. eexists _, _. split; reflexivity. Qed.

(** Two calls in one realm do not disturb each other: each has its own
    timer and its own promises. *)
Example squareAsync_two_calls :
  exists p q r1 r2,
    squareAsync (num_of_Z 5) (empty_realm 0) = (Normal p, r1)
    /\ squareAsync (num_of_Z (-3)) r1 = (Normal q, r2)
    /\ p <> q
    /\ step (run 6 r2) = None
    /\ promise_state (run 6 r2) p = Some (Fulfilled (num_of_Z 25))
    /\ promise_state (run 6 r2) q
       = Some (Rejected {| message := lit "Negative number not allowed" |}).
Proof.
  eexists _, _, _, _. split; [reflexivity |]. split; [reflexivity |].
  split; [discriminate |]. repeat split.
Qed.

(** NaN is not below zero: the promise is fulfilled, with NaN. *)
Example squareAsync_NaN :
  exists p r,
    squareAsync S754_nan (empty_realm 0) = (Normal p, r)
    /\ promise_state (run 3 r) p = Some (Fulfilled S754_nan).
Proof. eexists _, _. split; reflexivity. Qed.


(* ===================================================================== *)
(** * Part II, continued: further properties                              *)
(* ===================================================================== *)

(** ** Safe integers in binary64 *)

Lemma Zpos_shiftl (p : positive) (n : N) :
  Z.pos (Pos.shiftl p n) = Z.pos p * 2 ^ Z.of_N n.
Proof.
  destruct n as [| k].
  - change (Pos.shiftl p 0) with p. change (Z.of_N 0) with 0. rewrite Z.pow_0_r. lia.
  - apply Zpos_iter_xO.
Qed.

Lemma digits2_pos_shiftl (p : positive) (n : N) :
  Z.pos (digits2_pos (Pos.shiftl p n)) = Z.pos (digits2_pos p) + Z.of_N n.
Proof.
  destruct n as [| k].
  - change (Pos.shiftl p 0) with p. change (Z.of_N 0) with 0. lia.
  - change (Pos.shiftl p (N.pos k)) with (Pos.iter xO p k).
    rewrite digits2_pos_iter_xO. lia.
Qed.

Lemma digits2_pos_le_prec (p : positive) :
  Z.pos p < 2 ^ prec -> Z.pos (digits2_pos p) <= prec.
Proof.
  intros Hp. pose proof (digits2_pos_bounds p) as [Hlo _].
  destruct (Z_le_gt_dec (Z.pos (digits2_pos p)) prec) as [H | H]; [exact H |].
  exfalso. apply (Z.lt_irrefl (Z.pos p)). eapply Z.lt_le_trans; [exact Hp |].
  eapply Z.le_trans; [| exact Hlo]. apply Z.pow_le_mono_r; lia.
Qed.

Lemma int_mantissa_value (p : positive) :
  Z.pos p < 2 ^ prec ->
  Z.pos (int_mantissa p) = Z.pos p * 2 ^ (- int_exponent p).
Proof.
  intros Hp. apply digits2_pos_le_prec in Hp.
  unfold int_mantissa, int_exponent. rewrite Zpos_shiftl. f_equal. f_equal. lia.
Qed.

Lemma int_mantissa_digits (p : positive) :
  Z.pos p < 2 ^ prec -> Z.pos (digits2_pos (int_mantissa p)) = prec.
Proof.
  intros Hp. apply digits2_pos_le_prec in Hp.
  unfold int_mantissa. rewrite digits2_pos_shiftl. lia.
Qed.

Lemma int_bounded (p : positive) :
  Z.pos p < 2 ^ prec -> bounded prec emax (int_mantissa p) (int_exponent p) = true.
Proof.
  intros Hp. unfold bounded, canonical_mantissa.
  rewrite (int_mantissa_digits p Hp). apply digits2_pos_le_prec in Hp.
  unfold int_exponent, fexp, emin, prec, emax in *.
  apply andb_true_iff. split; [apply Z.eqb_eq | apply Z.leb_le]; lia.
Qed.

(** The number a safe integer literal denotes. *)
Lemma binary_round_int (s : bool) (p : positive) :
  Z.pos p < 2 ^ prec ->
  binary_round prec emax s p 0 = S754_finite s (int_mantissa p) (int_exponent p).
Proof.
  intros Hp. pose proof (digits2_pos_le_prec p Hp) as Hd.
  unfold binary_round.
  assert (Hfexp : fexp prec emax (Z.pos (digits2_pos p) + 0) = Z.pos (digits2_pos p) - prec)
    by (unfold fexp, emin, prec, emax in *; lia).
  rewrite Hfexp. unfold shl_align.
  destruct (Z.pos (digits2_pos p) - prec - 0) as [| k | k] eqn:Hk; [| lia |].
  - replace p with (int_mantissa p) at 1
      by (unfold int_mantissa; replace (prec - Z.pos (digits2_pos p)) with 0 by lia;
          reflexivity).
    replace 0 with (int_exponent p) by (unfold int_exponent; lia).
    apply binary_round_aux_canonical, int_bounded, Hp.
  - replace (Pos.iter xO p k) with (int_mantissa p)
      by (unfold int_mantissa;
          replace (prec - Z.pos (digits2_pos p)) with (Z.pos k) by lia; reflexivity).
    apply binary_round_aux_canonical, int_bounded, Hp.
Qed.

Lemma num_of_Z_pos (p : positive) :
  Z.pos p < 2 ^ prec ->
  num_of_Z (Z.pos p) = S754_finite false (int_mantissa p) (int_exponent p).
Proof. apply binary_round_int. Qed.

Lemma num_of_Z_neg (p : positive) :
  Z.pos p < 2 ^ prec ->
  num_of_Z (Z.neg p) = S754_finite true (int_mantissa p) (int_exponent p).
Proof. apply binary_round_int. Qed.

(** On safe integers the order of numbers is the order of integers. *)
Lemma int_compare_pos (p q : positive) :
  Z.pos p < 2 ^ prec -> Z.pos q < 2 ^ prec ->
  match int_exponent p ?= int_exponent q with
  | Eq => Pos.compare_cont Eq (int_mantissa p) (int_mantissa q)
  | Lt => Lt
  | Gt => Gt
  end = (p ?= q)%positive.
Proof.
  intros Hp Hq.
  pose proof (digits2_pos_bounds p) as [Hplo Hphi].
  pose proof (digits2_pos_bounds q) as [Hqlo Hqhi].
  pose proof (int_mantissa_value p Hp) as Hmp.
  pose proof (int_mantissa_value q Hq) as Hmq.
  unfold int_exponent in *.
  destruct (Z.compare_spec (Z.pos (digits2_pos p) - prec) (Z.pos (digits2_pos q) - prec))
    as [He | He | He].
  - change (Pos.compare_cont Eq (int_mantissa p) (int_mantissa q))
      with (Z.pos (int_mantissa p) ?= Z.pos (int_mantissa q)).
    rewrite Hmp, Hmq, He. change (p ?= q)%positive with (Z.pos p ?= Z.pos q).
    symmetry. apply Zmult_compare_compat_r.
    apply Z.lt_gt, Z.pow_pos_nonneg; [lia |]. apply digits2_pos_le_prec in Hq. lia.
  - symmetry. change (p ?= q)%positive with (Z.pos p ?= Z.pos q).
    apply Z.compare_lt_iff.
    eapply Z.lt_le_trans; [exact Hphi |]. eapply Z.le_trans; [| exact Hqlo].
    apply Z.pow_le_mono_r; lia.
  - symmetry. change (p ?= q)%positive with (Z.pos p ?= Z.pos q).
    apply Z.compare_gt_iff.
    eapply Z.lt_le_trans; [exact Hqhi |]. eapply Z.le_trans; [| exact Hplo].
    apply Z.pow_le_mono_r; lia.
Qed.

Lemma SFcompare_integers (a b : Z) :
  safe_integer a -> safe_integer b ->
  SFcompare (num_of_Z a) (num_of_Z b) = Some (a ?= b).
Proof.
  unfold safe_integer. intros Ha Hb.
  destruct a as [| p | p], b as [| q | q]; try reflexivity;
    rewrite ?num_of_Z_pos, ?num_of_Z_neg by lia; try reflexivity.
  - simpl. f_equal. apply int_compare_pos; lia.
  - simpl. f_equal. change (Z.neg p ?= Z.neg q) with (CompOpp (p ?= q)%positive).
    rewrite <- (int_compare_pos p q) by lia.
    destruct (int_exponent p ?= int_exponent q); reflexivity.
Qed.

Lemma iter_pos_iter {A : Type} (f : A -> A) (k : positive) (x : A) :
  SpecFloat.iter_pos f k x = Pos.iter f x k.
Proof.
  revert x. induction k as [k IH | k IH |]; intros x; simpl; [| | reflexivity].
  - rewrite !IH, !Pos.iter_swap. reflexivity.
  - rewrite !IH. reflexivity.
Qed.

(** Shifting out zeroes loses nothing. *)
Lemma shr_zeros (m k : positive) (e : Z) :
  shr {| shr_m := Z.pos (Pos.iter xO m k); shr_r := false; shr_s := false |} e (Z.pos k)
  = ({| shr_m := Z.pos m; shr_r := false; shr_s := false |}, e + Z.pos k).
Proof.
  unfold shr. f_equal. rewrite iter_pos_iter.
  induction k as [| k IH] using Pos.peano_ind; [reflexivity |].
  rewrite Pos.iter_succ_r, Pos.iter_succ. exact IH.
Qed.

Lemma binary_round_aux_zeros (s : bool) (m k : positive) (e : Z) :
  bounded prec emax m (e + Z.pos k) = true ->
  binary_round_aux prec emax s (Z.pos (Pos.iter xO m k)) e loc_Exact
  = S754_finite s m (e + Z.pos k).
Proof.
  unfold bounded, canonical_mantissa. intros Hb.
  apply andb_true_iff in Hb as [Hc He]. apply Z.eqb_eq in Hc.
  unfold binary_round_aux, shr_fexp. simpl shr_record_of_loc.
  unfold Zdigits2 at 1. rewrite digits2_pos_iter_xO.
  replace (fexp prec emax (Z.pos (digits2_pos m + k) + e) - e) with (Z.pos k)
    by (rewrite Pos2Z.inj_add;
        replace (Z.pos (digits2_pos m) + Z.pos k + e)
          with (Z.pos (digits2_pos m) + (e + Z.pos k)) by lia;
        rewrite Hc; lia).
  rewrite shr_zeros. simpl. rewrite Hc, Z.sub_diag. simpl.
  unfold prec, emax in *. rewrite He. reflexivity.
Qed.

Lemma digits2_pos_mul (p q : positive) :
  Z.pos (digits2_pos p) + Z.pos (digits2_pos q) - 1 <= Z.pos (digits2_pos (p * q)).
Proof.
  pose proof (digits2_pos_bounds p) as [Hp _].
  pose proof (digits2_pos_bounds q) as [Hq _].
  pose proof (digits2_pos_bounds (p * q)) as [_ Hpq].
  assert (Hlow : 2 ^ (Z.pos (digits2_pos p) - 1 + (Z.pos (digits2_pos q) - 1))
                 <= Z.pos (p * q)).
  { rewrite Z.pow_add_r, Pos2Z.inj_mul by lia.
    apply Z.mul_le_mono_nonneg; try assumption; apply Z.pow_nonneg; lia. }
  assert (Hlt : 2 ^ (Z.pos (digits2_pos p) - 1 + (Z.pos (digits2_pos q) - 1))
                < 2 ^ Z.pos (digits2_pos (p * q))) by lia.
  apply Z.pow_lt_mono_r_iff in Hlt; lia.
Qed.

(** The product of two safe integers, when safe, is not rounded. *)
Lemma mul_int_mantissas (s : bool) (p q : positive) :
  Z.pos (p * q) < 2 ^ prec ->
  binary_round_aux prec emax s (Z.pos (int_mantissa p * int_mantissa q))
    (int_exponent p + int_exponent q) loc_Exact
  = S754_finite s (int_mantissa (p * q)) (int_exponent (p * q)).
Proof.
  intros Hpq.
  assert (Hp : Z.pos p < 2 ^ prec) by (rewrite Pos2Z.inj_mul in Hpq; nia).
  assert (Hq : Z.pos q < 2 ^ prec) by (rewrite Pos2Z.inj_mul in Hpq; nia).
  pose proof (digits2_pos_le_prec p Hp) as Hdp.
  pose proof (digits2_pos_le_prec q Hq) as Hdq.
  pose proof (digits2_pos_le_prec (p * q) Hpq) as Hdpq.
  pose proof (digits2_pos_mul p q) as Hmul.
  set (k := Z.to_pos (Z.pos (digits2_pos (p * q)) + prec
                      - Z.pos (digits2_pos p) - Z.pos (digits2_pos q))).
  assert (Hk : Z.pos k = Z.pos (digits2_pos (p * q)) + prec
                         - Z.pos (digits2_pos p) - Z.pos (digits2_pos q)).
  { unfold k. rewrite Z2Pos.id; unfold prec in *; lia. }
  assert (Hm : (int_mantissa p * int_mantissa q)%positive
               = Pos.iter xO (int_mantissa (p * q)) k).
  { apply Pos2Z.inj.
    rewrite Pos2Z.inj_mul, Zpos_iter_xO, !int_mantissa_value by assumption.
    unfold int_exponent. rewrite Hk, Pos2Z.inj_mul.
    replace (- (Z.pos (digits2_pos (p * q)) - prec))
      with (prec - Z.pos (digits2_pos (p * q))) by lia.
    replace (- (Z.pos (digits2_pos p) - prec))
      with (prec - Z.pos (digits2_pos p)) by lia.
    replace (- (Z.pos (digits2_pos q) - prec))
      with (prec - Z.pos (digits2_pos q)) by lia.
    transitivity (Z.pos p * Z.pos q
                  * 2 ^ (prec - Z.pos (digits2_pos p) + (prec - Z.pos (digits2_pos q)))).
    - rewrite Z.pow_add_r by lia. ring.
    - replace (prec - Z.pos (digits2_pos p) + (prec - Z.pos (digits2_pos q)))
        with (prec - Z.pos (digits2_pos (p * q))
              + (Z.pos (digits2_pos (p * q)) + prec
                 - Z.pos (digits2_pos p) - Z.pos (digits2_pos q))) by lia.
      rewrite Z.pow_add_r by (unfold prec in *; lia). ring. }
  rewrite Hm.
  replace (int_exponent (p * q)) with (int_exponent p + int_exponent q + Z.pos k)
    by (unfold int_exponent; lia).
  apply binary_round_aux_zeros.
  replace (int_exponent p + int_exponent q + Z.pos k) with (int_exponent (p * q))
    by (unfold int_exponent; lia).
  apply int_bounded. exact Hpq.
Qed.

Lemma num_mul_integers (a b : Z) :
  a <> 0 -> b <> 0 -> safe_integer (a * b) ->
  num_mul (num_of_Z a) (num_of_Z b) = num_of_Z (a * b).
Proof.
  unfold safe_integer. intros Ha Hb Hab.
  assert (Hsa : - 2 ^ prec < a < 2 ^ prec) by nia.
  assert (Hsb : - 2 ^ prec < b < 2 ^ prec) by nia.
  destruct a as [| p | p], b as [| q | q]; try congruence.
  - change (Z.pos p * Z.pos q) with (Z.pos (p * q)) in *.
    rewrite !num_of_Z_pos by lia. apply mul_int_mantissas. lia.
  - change (Z.pos p * Z.neg q) with (Z.neg (p * q)) in *.
    rewrite !num_of_Z_pos, !num_of_Z_neg by lia. apply mul_int_mantissas. lia.
  - change (Z.neg p * Z.pos q) with (Z.neg (p * q)) in *.
    rewrite !num_of_Z_pos, !num_of_Z_neg by lia. apply mul_int_mantissas. lia.
  - change (Z.neg p * Z.neg q) with (Z.pos (p * q)) in *.
    rewrite !num_of_Z_pos, !num_of_Z_neg by lia. apply mul_int_mantissas. lia.
Qed.

Lemma num_mul_square (z : Z) :
  safe_integer (z * z) -> num_mul (num_of_Z z) (num_of_Z z) = num_of_Z (z * z).
Proof.
  intros Hz. destruct (Z.eq_dec z 0) as [-> | Hnz]; [reflexivity |].
  apply num_mul_integers; assumption.
Qed.

Lemma num_gt_integers (a b : Z) :
  safe_integer a -> safe_integer b ->
  num_gt (num_of_Z a) (num_of_Z b) = (b <? a).
Proof.
  intros Ha Hb. unfold num_gt. rewrite SFcompare_integers by assumption.
  rewrite Z.ltb_antisym, Z.leb_compare. destruct (a ?= b); reflexivity.
Qed.

Lemma num_ge_integers (a b : Z) :
  safe_integer a -> safe_integer b ->
  num_ge (num_of_Z a) (num_of_Z b) = (b <=? a).
Proof.
  intros Ha Hb. unfold num_ge. rewrite SFcompare_integers by assumption.
  rewrite Z.leb_antisym, Z.ltb_compare. destruct (a ?= b); reflexivity.
Qed.

Lemma num_lt_integers (a b : Z) :
  safe_integer a -> safe_integer b ->
  num_lt (num_of_Z a) (num_of_Z b) = (a <? b).
Proof.
  intros Ha Hb. unfold num_lt. rewrite SFcompare_integers by assumption.
  rewrite Z.ltb_compare. destruct (a ?= b); reflexivity.
Qed.

Lemma num_of_Z_not_NaN (z : Z) : safe_integer z -> is_NaN (num_of_Z z) = false.
Proof.
  unfold safe_integer. intros Hz.
  destruct z as [| p | p]; rewrite ?num_of_Z_pos, ?num_of_Z_neg by lia; reflexivity.
Qed.

(** ** More on getMostExpensiveProduct *)

Lemma scan_member (l : list Product) (acc : Product) :
  fold_left scan_step l acc = acc \/ fold_left scan_step l acc ∈ l.
Proof.
  revert acc. induction l as [| p l IH]; intros acc; simpl; [left; reflexivity |].
  destruct (IH (scan_step acc p)) as [H | H].
  - rewrite H. unfold scan_step. destruct (num_gt (price p) (price acc)).
    + right. apply list_elem_of_here.
    + left. reflexivity.
  - right. apply list_elem_of_further. exact H.
Qed.

(** X1. Whatever the prices, NaN included, the record returned is one
    of the records of the list, and [null] is returned only for the empty
    list. *)
Theorem getMostExpensiveProduct_member (products : list Product) :
  match getMostExpensiveProduct products with
  | Some r => r ∈ products
  | None => products = []
  end.
Proof.
  destruct products as [| first rest]; [reflexivity |].
  unfold getMostExpensiveProduct.
  destruct (scan_member (first :: rest) first) as [H | H];
    [rewrite H; apply list_elem_of_here | exact H].
Qed.

Lemma scan_step_assoc (x y z : Product) :
  comparable y ->
  scan_step (scan_step x y) z = scan_step x (scan_step y z).
Proof.
  unfold comparable, scan_step. intros Hy.
  destruct (num_gt (price y) (price x)) eqn:Hyx;
    destruct (num_gt (price z) (price y)) eqn:Hzy; try rewrite Hyx; try reflexivity.
  - rewrite (num_gt_trans _ _ _ Hzy Hyx). reflexivity.
  - destruct (num_gt (price z) (price x)) eqn:Hzx; [| reflexivity].
    rewrite (num_gt_le_trans _ _ _ Hy Hzx Hyx) in Hzy. discriminate.
Qed.

Lemma scan_step_comparable (x y : Product) :
  comparable x -> comparable y -> comparable (scan_step x y).
Proof. intros Hx Hy. unfold scan_step. destruct (num_gt _ _); assumption. Qed.

Lemma scan_from_step (l : list Product) (x y : Product) :
  comparable y -> Forall comparable l ->
  fold_left scan_step l (scan_step x y) = scan_step x (fold_left scan_step l y).
Proof.
  revert y. induction l as [| p l IH]; intros y Hy Hl; simpl; [reflexivity |].
  apply Forall_cons in Hl as [Hp Hl].
  rewrite scan_step_assoc by exact Hy.
  apply IH; [apply scan_step_comparable; assumption | exact Hl].
Qed.

Lemma scan_step_same (x : Product) : scan_step x x = x.
Proof. unfold scan_step. rewrite num_gt_irrefl. reflexivity. Qed.

(** X2. The most expensive record of two lists put end to end is the
    more expensive of the two lists' results, the first list winning a tie
    (for comparable prices in the second list). *)
Theorem getMostExpensiveProduct_app (l1 l2 : list Product) (a b : Product) :
  Forall comparable l2 ->
  getMostExpensiveProduct l1 = Some a ->
  getMostExpensiveProduct l2 = Some b ->
  getMostExpensiveProduct (l1 ++ l2) = Some (scan_step a b).
Proof.
  intros Hcmp Ha Hb.
  destruct l1 as [| f1 r1]; [discriminate |].
  destruct l2 as [| f2 r2]; [discriminate |].
  simpl in Ha, Hb |- *. injection Ha as Ha. injection Hb as Hb.
  rewrite scan_step_same in Hb. rewrite fold_left_app, Ha. simpl.
  apply Forall_cons in Hcmp as [Hf2 Hr2].
  rewrite scan_from_step by assumption. rewrite Hb. reflexivity.
Qed.

Lemma getMostExpensiveProduct_app_witness :
  Forall comparable [product_B; product_A]
  /\ getMostExpensiveProduct [product_A; product_C] = Some product_C
  /\ getMostExpensiveProduct [product_B; product_A] = Some product_B
  /\ getMostExpensiveProduct ([product_A; product_C] ++ [product_B; product_A])
     = Some product_C.
Proof.
  assert (H : Forall comparable [product_B; product_A]) by (repeat constructor).
  split; [exact H |]. split; [reflexivity |]. split; [reflexivity |].
  apply (getMostExpensiveProduct_app [product_A; product_C] [product_B; product_A]
           product_C product_B H); reflexivity.
Defined.

Lemma scan_from_NaN (l : list Product) (acc : Product) :
  is_NaN (price acc) = true -> fold_left scan_step l acc = acc.
Proof.
  intros Hnan. induction l as [| p l IH]; simpl; [reflexivity |].
  unfold scan_step at 2. replace (num_gt (price p) (price acc)) with false; [exact IH |].
  unfold num_gt. destruct (price acc); try discriminate.
  destruct (price p); reflexivity.
Qed.

Lemma scan_step_NaN (acc p : Product) :
  is_NaN (price p) = true -> scan_step acc p = acc.
Proof.
  intros Hnan. unfold scan_step, num_gt.
  destruct (price p); try discriminate. reflexivity.
Qed.

(** X3. A record whose price is NaN is returned when it is the first of
    the list, whatever follows it. *)
Theorem getMostExpensiveProduct_NaN_head (first : Product) (rest : list Product) :
  is_NaN (price first) = true ->
  getMostExpensiveProduct (first :: rest) = Some first.
Proof.
  intros Hnan. unfold getMostExpensiveProduct. f_equal.
  apply scan_from_NaN. exact Hnan.
Qed.

Lemma getMostExpensiveProduct_NaN_head_witness :
  is_NaN (price product_N) = true
  /\ getMostExpensiveProduct [product_N; product_A; product_B] = Some product_N.
Proof.
  split; [reflexivity |].
  apply (getMostExpensiveProduct_NaN_head product_N [product_A; product_B]).
  reflexivity.
Defined.

(** X4. A record whose price is NaN, anywhere but in first place, is
    passed over: the result is the same as without it. *)
Theorem getMostExpensiveProduct_NaN_skipped
    (l1 l2 : list Product) (p : Product) :
  l1 <> [] -> is_NaN (price p) = true ->
  getMostExpensiveProduct (l1 ++ p :: l2) = getMostExpensiveProduct (l1 ++ l2).
Proof.
  intros Hne Hnan. destruct l1 as [| f r]; [congruence |].
  simpl. f_equal. rewrite !fold_left_app. simpl.
  rewrite (scan_step_NaN _ p Hnan). reflexivity.
Qed.

Lemma getMostExpensiveProduct_NaN_skipped_witness :
  [product_A] <> []
  /\ is_NaN (price product_N) = true
  /\ getMostExpensiveProduct ([product_A] ++ product_N :: [product_B])
     = getMostExpensiveProduct ([product_A] ++ [product_B]).
Proof.
  split; [discriminate |]. split; [reflexivity |].
  apply (getMostExpensiveProduct_NaN_skipped [product_A] [product_B] product_N);
    [discriminate | reflexivity].
Defined.

Lemma lookup_map {A B : Type} (f : A -> B) (l : list A) (i : nat) :
  map f l !! i = f <$> l !! i.
Proof.
  revert i. induction l as [| x l IH]; intros [| i]; simpl; try reflexivity.
  apply IH.
Qed.

Lemma first_greatest_exists (first : Product) (rest : list Product) :
  Forall comparable (first :: rest) ->
  exists i, first_greatest (first :: rest) i (fold_left scan_step (first :: rest) first).
Proof.
  intros Hcmp. simpl. rewrite scan_step_same.
  apply (scan_first_greatest rest [first] first 0 Hcmp).
  split; [reflexivity | split].
  - intros p Hp. apply list_elem_of_singleton in Hp as ->. apply num_gt_irrefl.
  - intros j p Hj. lia.
Qed.

(** X5. On records with safe-integer prices the order of the scan is
    the order of the integers: the record returned is the first one whose
    price is the greatest integer of the list. *)
Theorem getMostExpensiveProduct_integers (items : list (jsstring * Z)) :
  Forall (fun it => safe_integer it.2) items ->
  items <> [] ->
  exists i it,
    items !! i = Some it
    /\ getMostExpensiveProduct (map priced items) = Some (priced it)
    /\ (forall it', it' ∈ items -> it'.2 <= it.2)
    /\ (forall j it', (j < i)%nat -> items !! j = Some it' -> it'.2 < it.2).
Proof.
  intros Hsafe Hne. destruct items as [| it0 items]; [congruence |].
  assert (Hcmp : Forall comparable (map priced (it0 :: items))).
  { apply Forall_forall. intros p Hp. apply list_elem_of_In, in_map_iff in Hp
      as (it & <- & Hit).
    apply num_of_Z_not_NaN. rewrite Forall_forall in Hsafe.
    apply Hsafe, list_elem_of_In, Hit. }
  assert (Hres : exists r, getMostExpensiveProduct (map priced (it0 :: items)) = Some r
                           /\ exists i, first_greatest (map priced (it0 :: items)) i r).
  { eexists. split; [reflexivity |].
    apply (first_greatest_exists (priced it0) (map priced items) Hcmp). }
  destruct Hres as (r & Hres & i & Hi & Hmax & Hfirst).
  rewrite Hres. rewrite lookup_map in Hi.
  destruct ((it0 :: items) !! i) as [it |] eqn:Hit; [| discriminate].
  injection Hi as <-. exists i, it. split; [exact Hit |]. split; [reflexivity |].
  rewrite Forall_forall in Hsafe.
  assert (Hsit : safe_integer it.2)
    by (apply Hsafe; eapply list_elem_of_lookup_2; exact Hit).
  split.
  - intros it' Hit'.
    assert (Hin : priced it' ∈ map priced (it0 :: items))
      by (apply list_elem_of_In, in_map, list_elem_of_In, Hit').
    specialize (Hmax _ Hin). simpl in Hmax.
    rewrite num_gt_integers in Hmax by auto. apply Z.ltb_ge, Hmax.
  - intros j it' Hj Hit'. specialize (Hfirst j (priced it') Hj).
    rewrite lookup_map, Hit' in Hfirst. specialize (Hfirst eq_refl).
    simpl in Hfirst. rewrite num_gt_integers in Hfirst.
    + apply Z.ltb_lt. exact Hfirst.
    + exact Hsit.
    + apply Hsafe. eapply list_elem_of_lookup_2; exact Hit'.
Qed.

Lemma getMostExpensiveProduct_integers_witness :
  Forall (fun it : jsstring * Z => safe_integer it.2)
    [(lit "A", 10); (lit "B", 20); (lit "C", 20)]
  /\ [(lit "A", 10); (lit "B", 20); (lit "C", 20)] <> []
  /\ exists i it,
       [(lit "A", 10); (lit "B", 20); (lit "C", 20)] !! i = Some it
       /\ getMostExpensiveProduct (map priced [(lit "A", 10); (lit "B", 20); (lit "C", 20)])
          = Some (priced it)
       /\ (forall it', it' ∈ [(lit "A", 10); (lit "B", 20); (lit "C", 20)] -> it'.2 <= it.2)
       /\ (forall j it', (j < i)%nat ->
             [(lit "A", 10); (lit "B", 20); (lit "C", 20)] !! j = Some it' -> it'.2 < it.2).
Proof.
  assert (H : Forall (fun it : jsstring * Z => safe_integer it.2)
                [(lit "A", 10); (lit "B", 20); (lit "C", 20)])
    by (repeat constructor; unfold safe_integer, prec; simpl; lia).
  split; [exact H |]. split; [discriminate |].
  apply (getMostExpensiveProduct_integers _ H). discriminate.
Defined.

(** ** More on filterByRating *)

Lemma filterByRating_app (A B : list RatedItem) :
  filterByRating (A ++ B) = filterByRating A ++ filterByRating B.
Proof. apply List.filter_app. Qed.

Lemma filterByRating_concat (arrays : list (list RatedItem)) :
  filterByRating (concat arrays) = concat (map filterByRating arrays).
Proof.
  induction arrays as [| a arrays IH]; [reflexivity |].
  simpl. rewrite filterByRating_app, IH. reflexivity.
Qed.

(** X6. Filtering commutes with concatenation: the good records of the
    concatenation of some arrays are the concatenation of the good records
    of each. *)
Theorem filterByRating_concatenateArrays (arrays : list (list RatedItem)) :
  filterByRating (concatenateArrays arrays)
  = concatenateArrays (map filterByRating arrays).
Proof.
  rewrite !concatenateArrays_concat. apply filterByRating_concat.
Qed.

Lemma filterByRating_nil_iff (R : list RatedItem) :
  filterByRating R = [] <-> Forall (fun item => rating_at_least_4 item = false) R.
Proof.
  induction R as [| item R IH]; [split; [constructor | reflexivity] |].
  rewrite filterByRating_cons. destruct (rating_at_least_4 item) eqn:E.
  - split; [discriminate |]. intros H. apply Forall_cons in H as [H _]. congruence.
  - rewrite IH. split; [intros H; constructor; assumption |].
    intros H. apply Forall_cons in H as [_ H]. exact H.
Qed.

(** X7. The result has the elements of the input exactly when every
    record is rated at least 4, and it is empty exactly when none is. *)
Theorem filterByRating_all_or_nothing (R : list RatedItem) :
  (filterByRating R = R
   <-> Forall (fun item => num_ge (rating item) (num_of_Z 4) = true) R)
  /\ (filterByRating R = []
      <-> Forall (fun item => num_ge (rating item) (num_of_Z 4) = false) R).
Proof.
  split; [| apply filterByRating_nil_iff].
  split; [| apply filterByRating_fixed].
  intros H. rewrite <- H. apply filterByRating_all.
Qed.

Lemma rating_at_least_4_integer (it : jsstring * Z) :
  safe_integer it.2 -> rating_at_least_4 (rated it) = (4 <=? it.2).
Proof.
  intros Hz. unfold rating_at_least_4, rated. cbn [rating snd].
  apply num_ge_integers; [exact Hz |]. unfold safe_integer, prec. lia.
Qed.

(** X8. On records with safe-integer ratings the test is the integer
    comparison [4 <= rating]: the result is made of the records whose
    integer rating is 4 or more. *)
Theorem filterByRating_integers (items : list (jsstring * Z)) :
  Forall (fun it => safe_integer it.2) items ->
  filterByRating (map rated items)
  = map rated (List.filter (fun it => 4 <=? it.2) items).
Proof.
  induction 1 as [| it items Hit Hitems IH]; [reflexivity |].
  simpl map. rewrite filterByRating_cons, rating_at_least_4_integer by exact Hit.
  simpl List.filter. destruct (4 <=? it.2); simpl; rewrite IH; reflexivity.
Qed.

Lemma filterByRating_integers_witness :
  Forall (fun it : jsstring * Z => safe_integer it.2)
    [(lit "a", 5); (lit "b", 3); (lit "c", 4); (lit "d", -7)]
  /\ filterByRating (map rated [(lit "a", 5); (lit "b", 3); (lit "c", 4); (lit "d", -7)])
     = map rated [(lit "a", 5); (lit "c", 4)].
Proof.
  assert (H : Forall (fun it : jsstring * Z => safe_integer it.2)
                [(lit "a", 5); (lit "b", 3); (lit "c", 4); (lit "d", -7)])
    by (repeat constructor; unfold safe_integer, prec; simpl; lia).
  split; [exact H |].
  apply (filterByRating_integers [(lit "a", 5); (lit "b", 3); (lit "c", 4); (lit "d", -7)] H).
Defined.

(** X9. Ratings that are not finite: a record rated NaN or -Infinity is
    never in the result, and a record rated +Infinity is in it whenever it
    is in the input. *)
Theorem filterByRating_not_finite (R : list RatedItem) (item : RatedItem) :
  (rating item = S754_nan \/ rating item = S754_infinity true ->
   item ∉ filterByRating R)
  /\ (rating item = S754_infinity false -> item ∈ R -> item ∈ filterByRating R).
Proof.
  split.
  - intros Hr Hin. apply filterByRating_elem in Hin as [_ Hge].
    unfold rating_at_least_4 in Hge. destruct Hr as [Hr | Hr]; rewrite Hr in Hge;
      discriminate.
  - intros Hr Hin. apply filterByRating_elem. split; [exact Hin |].
    unfold rating_at_least_4. rewrite Hr. reflexivity.
Qed.

(** ** More on concatenateArrays *)

(** X10. Concatenating in groups gives the same elements as
    concatenating all the arrays at once. *)
Theorem concatenateArrays_groups {T : Type} (groups : list (list (list T))) :
  concatenateArrays (map concatenateArrays groups) = concatenateArrays (concat groups).
Proof.
  rewrite !concatenateArrays_concat.
  induction groups as [| g groups IH]; [reflexivity |].
  simpl. rewrite concatenateArrays_concat, concat_app, IH. reflexivity.
Qed.

Lemma concat_lookup_inv {T : Type} (arrays : list (list T)) (i : nat) (x : T) :
  concat arrays !! i = Some x ->
  exists k a j, arrays !! k = Some a /\ a !! j = Some x
                /\ i = (list_sum (map length (take k arrays)) + j)%nat.
Proof.
  revert i. induction arrays as [| b arrays IH]; intros i Hi; [discriminate |].
  simpl in Hi. apply lookup_app_Some in Hi as [Hi | [Hle Hi]].
  - exists 0%nat, b, i. auto.
  - destruct (IH _ Hi) as (k & a & j & Hk & Hj & Heq).
    exists (S k), a, j. split; [exact Hk |]. split; [exact Hj |]. simpl. lia.
Qed.

(** X11. Nothing else is in the result: every element of it is an
    element of one of the inputs, at the offset of that input. *)
Theorem concatenateArrays_only_inputs {T : Type} (arrays : list (list T))
    (i : nat) (x : T) :
  concatenateArrays arrays !! i = Some x ->
  exists k a j, arrays !! k = Some a /\ a !! j = Some x
                /\ i = (list_sum (map length (take k arrays)) + j)%nat.
Proof. rewrite concatenateArrays_concat. apply concat_lookup_inv. Qed.

Lemma concatenateArrays_only_inputs_witness :
  concatenateArrays sample_arrays !! 2%nat = Some 3
  /\ exists k a j, sample_arrays !! k = Some a /\ a !! j = Some 3
                   /\ 2%nat = (list_sum (map length (take k sample_arrays)) + j)%nat.
Proof.
  split; [reflexivity |].
  apply (concatenateArrays_only_inputs sample_arrays 2 3). reflexivity.
Defined.

(** X12. Empty arrays among the inputs add nothing: the result is the
    same without them. *)
Theorem concatenateArrays_skip_empty {T : Type} (arrays : list (list T)) :
  concatenateArrays
    (List.filter (fun a => match a with [] => false | _ => true end) arrays)
  = concatenateArrays arrays.
Proof.
  rewrite !concatenateArrays_concat.
  induction arrays as [| a arrays IH]; [reflexivity |].
  destruct a as [| x a]; simpl; rewrite IH; reflexivity.
Qed.





(** ** More on processValue *)

Lemma num_mul_2_integer (z : Z) :
  safe_integer (2 * z) -> num_mul (num_of_Z z) (num_of_Z 2) = num_of_Z (2 * z).
Proof.
  intros Hz. destruct (Z.eq_dec z 0) as [-> | Hnz]; [reflexivity |].
  rewrite (Z.mul_comm 2 z) in Hz |- *.
  apply num_mul_integers; [exact Hnz | discriminate | exact Hz].
Qed.

(** X14. Doubling a safe integer whose double is safe gives the double
    integer, with no rounding. *)
Theorem processValue_integer (z : Z) :
  safe_integer (2 * z) ->
  processValue (VNumber (num_of_Z z)) = num_of_Z (2 * z).
Proof. apply num_mul_2_integer. Qed.

Lemma processValue_integer_witness :
  safe_integer (2 * 10) /\ processValue (VNumber (num_of_Z 10)) = num_of_Z (2 * 10).
Proof.
  assert (H : safe_integer (2 * 10)) by (unfold safe_integer, prec; lia).
  split; [exact H | apply (processValue_integer 10 H)].
Defined.

(** X15. The two branches compose: the result for a string, passed
    back as a number, gives twice the length of the string. *)
Theorem processValue_twice_length (s : jsstring) :
  2 * Z.of_nat (length s) < 2 ^ prec ->
  processValue (VNumber (processValue (VString s)))
  = num_of_Z (2 * Z.of_nat (length s)).
Proof.
  intros Hs. unfold processValue, str_length. apply num_mul_2_integer.
  unfold safe_integer. lia.
Qed.

Lemma processValue_twice_length_witness :
  2 * Z.of_nat (length (lit "hello")) < 2 ^ prec
  /\ processValue (VNumber (processValue (VString (lit "hello")))) = num_of_Z 10.
Proof.
  assert (H : 2 * Z.of_nat (length (lit "hello")) < 2 ^ prec) by reflexivity.
  split; [exact H | apply (processValue_twice_length (lit "hello") H)].
Defined.

Lemma binary_round_aux_opp (s : bool) (m e : Z) (l : location) :
  SFopp (binary_round_aux prec emax s m e l)
  = binary_round_aux prec emax (negb s) m e l.
Proof.
  unfold binary_round_aux.
  destruct (shr_fexp prec emax m e l) as [mrs' e'].
  destruct (shr_fexp prec emax _ e' loc_Exact) as [mrs'' e''].
  destruct (shr_m mrs''); [reflexivity | | reflexivity].
  destruct (e'' <=? emax - prec); reflexivity.
Qed.

(** X16. For numbers the function is odd: the result for [-n] is the
    opposite of the result for [n], for every number, NaN, the zeroes and
    the infinities included. *)
Theorem processValue_opposite (n : number) :
  processValue (VNumber (SFopp n)) = SFopp (processValue (VNumber n)).
Proof.
  unfold processValue.
  change (num_of_Z 2) with (S754_finite false 4503599627370496 (-51)).
  destruct n as [s | s | | s m e]; try (destruct s; reflexivity); [reflexivity |].
  unfold num_mul, SFopp at 1, SFmul. rewrite binary_round_aux_opp.
  destruct s; reflexivity.
Qed.

Lemma num_mul_2_bounded (s : bool) (m : positive) (e : Z) :
  bounded prec emax m e = true ->
  is_number (num_mul (S754_finite s m e) (num_of_Z 2)) = true
  /\ is_NaN (num_mul (S754_finite s m e) (num_of_Z 2)) = false.
Proof.
  intros Hb. rewrite (num_mul_2_finite s m e Hb).
  unfold bounded, canonical_mantissa in Hb.
  apply andb_true_iff in Hb as [Hc He]. apply Z.eqb_eq in Hc. apply Z.leb_le in He.
  destruct (Z.eqb_spec (Z.pos (digits2_pos m)) prec) as [Hd | Hd].
  - destruct (Z.leb_spec (e + 1) (emax - prec)) as [Hfit | Hover];
      [| split; reflexivity].
    split; [| reflexivity]. unfold is_number, valid_binary, bounded, canonical_mantissa.
    apply andb_true_iff. split; [apply Z.eqb_eq | apply Z.leb_le; exact Hfit].
    unfold fexp, emin, prec, emax in *. lia.
  - split; [| reflexivity]. unfold is_number, valid_binary, bounded, canonical_mantissa.
    apply andb_true_iff. split; [apply Z.eqb_eq | apply Z.leb_le; exact He].
    simpl digits2_pos. rewrite Pos2Z.inj_succ.
    unfold fexp, emin, prec, emax in *. lia.
Qed.

(** X17. The result is a well-formed number whenever the argument is
    (a string shorter than [2^53], or a well-formed number), and it is NaN
    only for the argument NaN. *)
Theorem processValue_well_formed :
  (forall s, Z.of_nat (length s) < 2 ^ prec ->
             is_number (processValue (VString s)) = true
             /\ is_NaN (processValue (VString s)) = false)
  /\ (forall n, is_number n = true ->
                is_number (processValue (VNumber n)) = true
                /\ is_NaN (processValue (VNumber n)) = is_NaN n).
Proof.
  split.
  - intros s Hs. unfold processValue, str_length.
    destruct (Z.of_nat (length s)) as [| p | p] eqn:Hlen; [split; reflexivity | | lia].
    rewrite num_of_Z_pos by exact Hs.
    split; [apply int_bounded; exact Hs | reflexivity].
  - intros n Hn. unfold processValue.
    destruct n as [s | s | | s m e]; try (destruct s; split; reflexivity);
      [split; reflexivity |].
    apply num_mul_2_bounded. exact Hn.
Qed.

Lemma processValue_well_formed_witness :
  Z.of_nat (length (lit "hello")) < 2 ^ prec
  /\ is_number (num_of_Z 10) = true
  /\ is_number (processValue (VString (lit "hello"))) = true
  /\ is_number (processValue (VNumber (num_of_Z 10))) = true.
Proof.
  destruct processValue_well_formed as [Hs Hn].
  split; [reflexivity |]. split; [reflexivity |]. split.
  - apply (Hs (lit "hello")). reflexivity.
  - apply (Hn (num_of_Z 10)). reflexivity.
Defined.

(** ** More on squareAsync *)

Lemma squareAsync_settled_state (n : number) (now : Z) :
  exists r, squareAsync n (empty_realm now) = (Normal 0%nat, r)
    /\ promise_state (run 3 r) 0 = Some (settled_state n)
    /\ step (run 3 r) = None.
Proof.
  destruct (squareAsync_turns n now) as (r & Hcall & _ & _ & _ & H3 & Hidle & _).
  exists r. auto.
Qed.

(** X18. On a safe integer [z] whose square is safe, the promise is
    rejected when [z] is below 0 and fulfilled with the integer [z * z],
    not rounded, otherwise. *)
Theorem squareAsync_integer (z now : Z) :
  safe_integer (z * z) ->
  exists p r,
    squareAsync (num_of_Z z) (empty_realm now) = (Normal p, r)
    /\ step (run 3 r) = None
    /\ promise_state (run 3 r) p
       = Some (if z <? 0
               then Rejected {| message := lit "Negative number not allowed" |}
               else Fulfilled (num_of_Z (z * z))).
Proof.
  intros Hsq.
  assert (Hz : safe_integer z) by (unfold safe_integer in *; nia).
  destruct (squareAsync_settled_state (num_of_Z z) now) as (r & Hcall & H3 & Hidle).
  exists 0%nat, r. split; [exact Hcall |]. split; [exact Hidle |].
  rewrite H3. unfold settled_state.
  rewrite num_lt_integers, num_mul_square; [reflexivity | exact Hsq | exact Hz |].
  unfold safe_integer, prec. lia.
Qed.

Lemma squareAsync_integer_witness :
  safe_integer (12 * 12)
  /\ exists p r,
       squareAsync (num_of_Z 12) (empty_realm 0) = (Normal p, r)
       /\ step (run 3 r) = None
       /\ promise_state (run 3 r) p = Some (Fulfilled (num_of_Z 144)).
Proof.
  assert (H : safe_integer (12 * 12)) by (unfold safe_integer, prec; lia).
  split; [exact H |]. apply (squareAsync_integer 12 0 H).
Defined.

Lemma binary_round_aux_not_negative (m e : Z) (l : location) :
  num_lt (binary_round_aux prec emax false m e l) (num_of_Z 0) = false.
Proof.
  unfold binary_round_aux.
  destruct (shr_fexp prec emax m e l) as [mrs' e'].
  destruct (shr_fexp prec emax _ e' loc_Exact) as [mrs'' e''].
  destruct (shr_m mrs''); [reflexivity | | reflexivity].
  destruct (e'' <=? emax - prec); reflexivity.
Qed.

Lemma num_mul_self_not_negative (n : number) :
  num_lt (num_mul n n) (num_of_Z 0) = false.
Proof.
  destruct n as [s | s | | s m e]; try (destruct s; reflexivity); [reflexivity |].
  unfold num_mul, SFmul. rewrite xorb_nilpotent. apply binary_round_aux_not_negative.
Qed.

(** X19. A value the promise is fulfilled with is never below 0, so a
    second call on that value is never rejected: it is fulfilled with the
    square of the value. *)
Theorem squareAsync_again (n : number) (now now' : Z) :
  exists p r,
    squareAsync n (empty_realm now) = (Normal p, r)
    /\ forall v, promise_state (run 3 r) p = Some (Fulfilled v) ->
         num_lt v (num_of_Z 0) = false
         /\ exists p' r',
              squareAsync v (empty_realm now') = (Normal p', r')
              /\ promise_state (run 3 r') p' = Some (Fulfilled (num_mul v v)).
Proof.
  destruct (squareAsync_settled_state n now) as (r & Hcall & H3 & _).
  exists 0%nat, r. split; [exact Hcall |]. intros v Hv.
  rewrite H3 in Hv. unfold settled_state in Hv.
  destruct (num_lt n (num_of_Z 0)); [discriminate |]. injection Hv as <-.
  pose proof (num_mul_self_not_negative n) as Hpos. split; [exact Hpos |].
  destruct (squareAsync_settled_state (num_mul n n) now') as (r' & Hcall' & H3' & _).
  exists 0%nat, r'. split; [exact Hcall' |].
  rewrite H3'. unfold settled_state. rewrite Hpos. reflexivity.
Qed.


Ltac run_turns :=
  cbn [run step squareAsync new_promise setTimeout enqueue empty_realm
       insert_timer promises microtasks timers clock length app
       run_job follow settle lookup list_lookup list_insert insert
       state followers squareAsync_timeout captured_n captured_promise
       promise_state fmap option_fmap option_map map];
  rewrite ?Z.ltb_irrefl.

(** X21. Two calls made one after the other settle in the order of the
    calls, each with its own outcome: after four turns the first promise is
    settled and the second still pending, and after six both are settled
    and nothing is left to run. *)
Theorem squareAsync_in_call_order (a b : number) (now : Z) :
  exists p q r1 r2,
    squareAsync a (empty_realm now) = (Normal p, r1)
    /\ squareAsync b r1 = (Normal q, r2)
    /\ p <> q
    /\ promise_state (run 4 r2) p = Some (settled_state a)
    /\ promise_state (run 4 r2) q = Some Pending
    /\ promise_state (run 6 r2) p = Some (settled_state a)
    /\ promise_state (run 6 r2) q = Some (settled_state b)
    /\ step (run 6 r2) = None.
Proof.
  eexists _, _, _, _. split; [reflexivity |]. split; [reflexivity |].
  split; [discriminate |].
  unfold settled_state.
  run_turns. unfold squareAsync_timeout. run_turns.
  destruct (num_lt a (num_of_Z 0)); run_turns;
    unfold squareAsync_timeout; run_turns;
    destruct (num_lt b (num_of_Z 0)); run_turns; repeat split.
Qed.

Section IdleRealm.
Variable ps : list Promise.
Variables x y z : Promise.

Lemma lookup_new_0 : (ps ++ [x; y]) !! length ps = Some x.
Proof. apply list_lookup_middle. reflexivity. Qed.

Lemma lookup_new_1 : (ps ++ [x; y]) !! S (length ps) = Some y.
Proof.
  rewrite lookup_app_r by lia.
  replace (S (length ps) - length ps)%nat with 1%nat by lia. reflexivity.
Qed.


End IdleRealm.




(** ** Promises settle once *)

Lemma insert_keeps_settled (ps : list Promise) (p q : nat) (fs fs' : list nat)
    (s : PromiseState) (new : Promise) :
  ps !! p = Some {| state := Pending; followers := fs |} ->
  state <$> ps !! q = Some s -> s <> Pending ->
  state <$> <[p := new]> ps !! q = Some s.
Proof.
  intros Hp Hq Hs. destruct (decide (p = q)) as [-> | Hne].
  - rewrite Hp in Hq. injection Hq as <-. congruence.
  - rewrite list_lookup_insert_ne by exact Hne. exact Hq.
Qed.

Lemma settle_keeps_settled (r : Realm) (p q : nat) (o s : PromiseState) :
  promise_state r q = Some s -> s <> Pending ->
  promise_state (settle p o r) q = Some s.
Proof.
  unfold promise_state, settle. intros Hq Hs.
  destruct (promises r !! p) as [[[| v | e] fs] |] eqn:Hp; try exact Hq.
  cbn [promises]. eapply insert_keeps_settled; eauto.
Qed.

Lemma follow_keeps_settled (r : Realm) (outer inner q : nat) (s : PromiseState) :
  promise_state r q = Some s -> s <> Pending ->
  promise_state (follow outer inner r) q = Some s.
Proof.
  unfold promise_state, follow. intros Hq Hs.
  destruct (promises r !! inner) as [[[| v | e] fs] |] eqn:Hp; try exact Hq.
  cbn [promises]. eapply insert_keeps_settled; eauto.
Qed.

Lemma step_keeps_settled (r r' : Realm) (q : nat) (s : PromiseState) :
  step r = Some r' ->
  promise_state r q = Some s -> s <> Pending ->
  promise_state r' q = Some s.
Proof.
  unfold step. intros Hstep Hq Hs.
  destruct (microtasks r) as [| j js].
  - destruct (timers r) as [| [due cb] ts]; [discriminate |].
    injection Hstep as <-. unfold squareAsync_timeout.
    destruct (num_lt _ _); apply settle_keeps_settled; assumption.
  - injection Hstep as <-.
    destruct j; [apply follow_keeps_settled | apply settle_keeps_settled]; assumption.
Qed.

(** X23. A promise settles once: in any realm, whatever jobs and timers
    it holds, a promise that is fulfilled or rejected keeps that state and
    value through every later turn. *)
Theorem promise_settles_once (r : Realm) (q : nat) (s : PromiseState) (k : nat) :
  promise_state r q = Some s -> s <> Pending ->
  promise_state (run k r) q = Some s.
Proof.
  revert r. induction k as [| k IH]; intros r Hq Hs; [exact Hq |].
  simpl. destruct (step r) as [r' |] eqn:Hstep; [| exact Hq].
  apply IH; [| exact Hs]. eapply step_keeps_settled; eassumption.
Qed.

Lemma promise_settles_once_witness :
  promise_state settled_realm 0 = Some (Fulfilled (num_of_Z 7))
  /\ Fulfilled (num_of_Z 7) <> Pending
  /\ promise_state (run 5 (squareAsync (num_of_Z 2) settled_realm).2) 0
     = Some (Fulfilled (num_of_Z 7)).
Proof.
  split; [reflexivity |]. split; [discriminate |].
  apply (promise_settles_once (squareAsync (num_of_Z 2) settled_realm).2 0
           (Fulfilled (num_of_Z 7)) 5); [reflexivity | discriminate].
Defined.

(** ** More on Vehicle, Car and Day *)

(** The two methods called one after the other add their two
    lines after all earlier output, in the order of the calls, and a line
    of [getInfo] is never a line of [getModel], whatever the fields. *)
Theorem Car_two_lines (c c' : Car) (out : console) :
  Car_getModel c (Car_getInfo c out)
  = out ++ [ lit "Make: " ++ make (Car_super c) ++ lit ", Year: "
               ++ Number_toString (year (Car_super c));
             lit "Model: " ++ model c ]
  /\ lit "Make: " ++ make (Car_super c) ++ lit ", Year: "
       ++ Number_toString (year (Car_super c))
     <> lit "Model: " ++ model c'.
Proof.
  split.
  - unfold Car_getModel, Car_getInfo, Vehicle_getInfo, console_log.
    rewrite <- app_assoc. reflexivity.
  - simpl. discriminate.
Qed.

(** X24. The members of [Day] have distinct values in the order of the
    declaration, so that [===] on the values tells the members apart, and
    the weekend days are exactly the days from Saturday on. *)
Theorem Day_values (a b : Day) :
  (num_strict_eq (Day_value a) (Day_value b) = true <-> a = b)
  /\ (getDayType a = lit "Weekend"
      <-> num_ge (Day_value a) (Day_value Saturday) = true)
  /\ num_ge (Day_value a) (Day_value Monday) = true
  /\ num_ge (Day_value Sunday) (Day_value a) = true.
Proof.
  split; [| split; [| split]].
  - destruct a, b; vm_compute; split; intros H; try reflexivity; discriminate.
  - destruct a; vm_compute; split; intros H; try reflexivity; discriminate.
  - destruct a; reflexivity.
  - destruct a; reflexivity.
Qed.

(** ** The event loop ends *)

Lemma list_sum_insert {A : Type} (f : A -> nat) (l : list A) (i : nat) (x y : A) :
  l !! i = Some x ->
  (list_sum (map f (<[i := y]> l)) + f x = list_sum (map f l) + f y)%nat.
Proof.
  revert i. induction l as [| a l IH]; intros [| i] Hi; try discriminate; simpl in *.
  - injection Hi as ->. lia.
  - specialize (IH i Hi). lia.
Qed.

Lemma list_sum_reactions (ms : list Job) (o : PromiseState) (fs : list nat) :
  list_sum (map job_weight (ms ++ map (fun f => Reaction f o) fs))
  = (list_sum (map job_weight ms) + length fs)%nat.
Proof.
  rewrite map_app, list_sum_app. f_equal.
  induction fs as [| f fs IH]; simpl; [reflexivity | rewrite IH; reflexivity].
Qed.

Lemma settle_work (r : Realm) (p : nat) (o : PromiseState) :
  (work (settle p o r) <= work r)%nat.
Proof.
  unfold settle. destruct (promises r !! p) as [[[| v | e] fs] |] eqn:Hp; try lia.
  unfold work. cbn [promises microtasks timers].
  rewrite list_sum_reactions.
  pose proof (list_sum_insert (fun P => length (followers P)) (promises r) p
                {| state := Pending; followers := fs |}
                {| state := o; followers := [] |} Hp) as Hsum.
  cbn [followers length] in Hsum. lia.
Qed.

Lemma follow_work (r : Realm) (outer inner : nat) :
  (work (follow outer inner r) <= work r + 2)%nat.
Proof.
  unfold follow. destruct (promises r !! inner) as [[[| v | e] fs] |] eqn:Hp;
    unfold work, enqueue; cbn [promises microtasks timers];
    rewrite ?map_app, ?list_sum_app; simpl; try lia.
  pose proof (list_sum_insert (fun P => length (followers P)) (promises r) inner
                {| state := Pending; followers := fs |}
                {| state := Pending; followers := fs ++ [outer] |} Hp) as Hsum.
  cbn [followers] in Hsum. rewrite length_app in Hsum. simpl in Hsum. lia.
Qed.

Lemma step_work (r r' : Realm) : step r = Some r' -> (work r' < work r)%nat.
Proof.
  unfold step. intros Hstep.
  destruct (microtasks r) as [| j js] eqn:Hms.
  - destruct (timers r) as [| [due cb] ts] eqn:Hts; [discriminate |].
    injection Hstep as <-. unfold squareAsync_timeout.
    match goal with
    | |- context [settle ?q _ ?r1] =>
        assert (Hle : forall o, (work (settle q o r1) <= work r1)%nat)
          by (intros o; apply settle_work);
        assert (Hr1 : (work r1 < work r)%nat)
          by (unfold work; cbn [promises microtasks timers]; rewrite Hms, Hts;
              simpl; lia)
    end.
    destruct (num_lt _ _); eapply Nat.le_lt_trans; try apply Hle; exact Hr1.
  - injection Hstep as <-. destruct j as [outer inner | q o]; cbn [run_job].
    + eapply Nat.le_lt_trans; [apply follow_work |].
      unfold work. cbn [promises microtasks timers]. rewrite Hms. simpl. lia.
    + eapply Nat.le_lt_trans; [apply settle_work |].
      unfold work. cbn [promises microtasks timers]. rewrite Hms. simpl. lia.
Qed.

Lemma run_ends (k : nat) (r : Realm) : (work r <= k)%nat -> step (run k r) = None.
Proof.
  revert r. induction k as [| k IH]; intros r Hk.
  - simpl. destruct (step r) as [r' |] eqn:Hstep; [| reflexivity].
    apply step_work in Hstep. lia.
  - simpl. destruct (step r) as [r' |] eqn:Hstep; [| exact Hstep].
    apply IH. apply step_work in Hstep. lia.
Qed.

(** X25. The event loop ends: from any realm, whatever it holds, after
    at most [work r] turns nothing is left to run, and further turns change
    nothing. *)
Theorem loop_ends (r : Realm) (k : nat) :
  step (run (work r) r) = None
  /\ run (work r + k) r = run (work r) r.
Proof.
  assert (Hend : step (run (work r) r) = None) by (apply run_ends; lia).
  split; [exact Hend |]. rewrite run_add. apply run_idle. exact Hend.
Qed.

(** ** A call of squareAsync in any realm *)

Lemma names_false (p q : nat) : names p q = false <-> q <> p /\ q <> S p.
Proof.
  unfold names. rewrite orb_false_iff, !Nat.eqb_neq. reflexivity.
Qed.

Lemma names_outer (p : nat) : names p p = true.
Proof. unfold names. rewrite Nat.eqb_refl. reflexivity. Qed.

Lemma names_inner (p : nat) : names p (S p) = true.
Proof. unfold names. rewrite Nat.eqb_refl. apply orb_true_r. Qed.

Lemma squareAsync_timeout_settle (cb : TimerCallback) (r : Realm) :
  squareAsync_timeout cb r
  = settle (captured_promise cb) (settled_state (captured_n cb)) r.
Proof.
  unfold squareAsync_timeout, settled_state. destruct (num_lt _ _); reflexivity.
Qed.

Lemma own_reactions_none (p : nat) (o : PromiseState) (fs : list nat) :
  Forall (fun f => names p f = false) fs ->
  List.filter (job_names p) (map (fun f => Reaction f o) fs) = [].
Proof.
  induction 1 as [| f fs Hf Hfs IH]; [reflexivity |].
  simpl. rewrite Hf. exact IH.
Qed.

Lemma others_apart_ext (p : nat) (r r' : Realm) :
  (forall q, names p q = false -> promises r' !! q = promises r !! q) ->
  others_apart p r -> others_apart p r'.
Proof.
  intros Hsame Hr q P Hq HP. rewrite (Hsame q Hq) in HP. exact (Hr q P Hq HP).
Qed.

Lemma settle_foreign (p q : nat) (o : PromiseState) (r : Realm) :
  names p q = false -> others_apart p r -> untouched p r (settle q o r).
Proof.
  intros Hq Hr. pose proof (proj1 (names_false p q) Hq) as [Hqp Hqs].
  unfold untouched, settle.
  destruct (promises r !! q) as [[[| v | e] fs] |] eqn:HP; auto 6.
  unfold own_jobs, own_timers. cbn [promises microtasks timers].
  split; [| split; [reflexivity | split; [| split]]].
  - rewrite List.filter_app, (own_reactions_none p o fs), app_nil_r; [reflexivity |].
    exact (Hr q _ Hq HP).
  - apply list_lookup_insert_ne. exact Hqp.
  - apply list_lookup_insert_ne. exact Hqs.
  - intros q' P' Hq' HP'. cbn [promises] in HP'.
    destruct (decide (q = q')) as [<- | Hne].
    + rewrite list_lookup_insert_eq in HP' by (eapply lookup_lt_Some; exact HP).
      injection HP' as <-. constructor.
    + rewrite list_lookup_insert_ne in HP' by exact Hne. exact (Hr q' P' Hq' HP').
Qed.

Lemma follow_foreign (p outer inner : nat) (r : Realm) :
  names p outer = false -> names p inner = false -> others_apart p r ->
  untouched p r (follow outer inner r).
Proof.
  intros Ho Hi Hr. pose proof (proj1 (names_false p inner) Hi) as [Hip His].
  unfold untouched, follow.
  destruct (promises r !! inner) as [[[| v | e] fs] |] eqn:HP; auto 6.
  - unfold own_jobs, own_timers. cbn [promises microtasks timers].
    split; [reflexivity | split; [reflexivity | split; [| split]]].
    + apply list_lookup_insert_ne. exact Hip.
    + apply list_lookup_insert_ne. exact His.
    + intros q' P' Hq' HP'. cbn [promises] in HP'.
      destruct (decide (inner = q')) as [<- | Hne].
      * rewrite list_lookup_insert_eq in HP' by (eapply lookup_lt_Some; exact HP).
        injection HP' as <-. cbn [followers]. apply Forall_app. split.
        -- exact (Hr inner _ Hi HP).
        -- constructor; [exact Ho | constructor].
      * rewrite list_lookup_insert_ne in HP' by exact Hne. exact (Hr q' P' Hq' HP').
  - unfold own_jobs, own_timers, enqueue. cbn [promises microtasks timers].
    rewrite List.filter_app. simpl. rewrite Ho, app_nil_r. auto 6.
  - unfold own_jobs, own_timers, enqueue. cbn [promises microtasks timers].
    rewrite List.filter_app. simpl. rewrite Ho, app_nil_r. auto 6.
Qed.

Lemma untouched_phase (n : number) (p : nat) (r r1 r' : Realm) :
  call_stage n p (own_jobs p r1) (own_timers p r1)
    (promises r1 !! p) (promises r1 !! S p) ->
  untouched p r1 r' -> call_phase n p r'.
Proof.
  intros Hstage (Hj & Ht & Hp & Hs & Hap).
  split; [exact Hap |]. rewrite Hj, Ht, Hp, Hs. exact Hstage.
Qed.

Lemma step_phase (n : number) (p : nat) (r r' : Realm) :
  call_phase n p r -> step r = Some r' -> call_phase n p r'.
Proof.
  intros [Hap Hstage] Hstep. unfold step in Hstep.
  unfold own_jobs, own_timers in Hstage.
  destruct (microtasks r) as [| j js] eqn:Hms.
  - destruct (timers r) as [| [due cb] ts] eqn:Hts; [discriminate |].
    injection Hstep as <-. rewrite squareAsync_timeout_settle.
    simpl List.filter in Hstage.
    destruct (timer_names p (due, cb)) eqn:Hown.
    + destruct Hstage as [(Hj & _) | [(_ & [due' Ht] & Hp & Hs) | [(Hj & _) | (_ & Ht & _)]]];
        try discriminate.
      injection Ht as _ -> Hts'. cbn [captured_promise captured_n].
      unfold settle. cbn [promises microtasks timers clock]. rewrite Hs.
      split.
      * apply (others_apart_ext p r); [| exact Hap].
        intros q Hq. cbn [promises]. apply list_lookup_insert_ne.
        apply names_false in Hq as [_ Hq]. congruence.
      * unfold own_jobs, own_timers. cbn [promises microtasks timers map app].
        simpl List.filter. rewrite names_outer, Hts'.
        right; right; left. split; [reflexivity |]. split; [reflexivity |].
        split; [rewrite list_lookup_insert_ne by lia; exact Hp |].
        apply list_lookup_insert_eq. eapply lookup_lt_Some. exact Hs.
    + match goal with
      | |- call_phase _ _ (settle ?q ?o ?r1) =>
          refine (untouched_phase n p r r1 _ _
                    (settle_foreign p q o r1 Hown (Hap : others_apart p r1)))
      end.
      unfold own_jobs, own_timers. cbn [promises microtasks timers]. exact Hstage.
  - injection Hstep as <-. simpl List.filter in Hstage.
    destruct (job_names p j) eqn:Hown.
    + destruct Hstage as [(Hj & Ht & Hp & Hs) | [(Hj & _) | [(Hj & Ht & Hp & Hs) | (Hj & _)]]];
        try discriminate.
      * injection Hj as -> Hjs. cbn [run_job]. unfold follow.
        cbn [promises microtasks timers clock]. rewrite Hs.
        split.
        -- apply (others_apart_ext p r); [| exact Hap].
           intros q Hq. cbn [promises]. apply list_lookup_insert_ne.
           apply names_false in Hq as [_ Hq]. congruence.
        -- unfold own_jobs, own_timers. cbn [promises microtasks timers app].
           rewrite Hjs. right; left. split; [reflexivity |]. split; [exact Ht |].
           split; [rewrite list_lookup_insert_ne by lia; exact Hp |].
           apply list_lookup_insert_eq. eapply lookup_lt_Some. exact Hs.
      * injection Hj as -> Hjs. cbn [run_job]. unfold settle.
        cbn [promises microtasks timers clock]. rewrite Hp.
        split.
        -- apply (others_apart_ext p r); [| exact Hap].
           intros q Hq. cbn [promises]. apply list_lookup_insert_ne.
           apply names_false in Hq as [Hq _]. congruence.
        -- unfold own_jobs, own_timers. cbn [promises microtasks timers map].
           rewrite app_nil_r, Hjs.
           right; right; right. split; [reflexivity |]. split; [exact Ht |].
           split; [apply list_lookup_insert_eq; eapply lookup_lt_Some; exact Hp |].
           rewrite list_lookup_insert_ne by lia. exact Hs.
    + destruct j as [outer inner | q o]; cbn [run_job].
      * cbn [job_names] in Hown. apply orb_false_iff in Hown as [Ho Hi].
        match goal with
        | |- call_phase _ _ (follow ?a ?b ?r1) =>
            refine (untouched_phase n p r r1 _ _
                      (follow_foreign p a b r1 Ho Hi (Hap : others_apart p r1)))
        end.
        unfold own_jobs, own_timers. cbn [promises microtasks timers]. exact Hstage.
      * match goal with
      | |- call_phase _ _ (settle ?q ?o ?r1) =>
          refine (untouched_phase n p r r1 _ _
                    (settle_foreign p q o r1 Hown (Hap : others_apart p r1)))
      end.
        unfold own_jobs, own_timers. cbn [promises microtasks timers]. exact Hstage.
Qed.

Lemma run_phase (n : number) (p : nat) (k : nat) (r : Realm) :
  call_phase n p r -> call_phase n p (run k r).
Proof.
  revert r. induction k as [| k IH]; intros r Hr; [exact Hr |].
  simpl. destruct (step r) as [r' |] eqn:Hstep; [| exact Hr].
  apply IH. eapply step_phase; eassumption.
Qed.

Lemma phase_state (n : number) (p : nat) (r : Realm) :
  call_phase n p r ->
  promise_state r p = Some Pending \/ promise_state r p = Some (settled_state n).
Proof.
  intros [_ Hstage]. unfold promise_state.
  destruct Hstage as [(_ & _ & -> & _) | [(_ & _ & -> & _) | [(_ & _ & -> & _) | (_ & _ & -> & _)]]];
    auto.
Qed.

Lemma phase_idle (n : number) (p : nat) (r : Realm) :
  call_phase n p r -> step r = None ->
  promise_state r p = Some (settled_state n).
Proof.
  intros [_ Hstage] Hidle. unfold step in Hidle.
  unfold own_jobs, own_timers, promise_state in *.
  destruct (microtasks r); [| discriminate].
  destruct (timers r) as [| [due cb] ts]; [| discriminate].
  destruct Hstage as [(Hj & _) | [(_ & [due Ht] & _) | [(Hj & _) | (_ & _ & -> & _)]]];
    try discriminate.
  reflexivity.
Qed.

Lemma own_timers_insert (p : nat) (due : Z) (cb : TimerCallback)
    (ts : list (Z * TimerCallback)) :
  timer_names p (due, cb) = true ->
  List.filter (timer_names p) ts = [] ->
  List.filter (timer_names p) (insert_timer due cb ts) = [(due, cb)].
Proof.
  intros Hcb. induction ts as [| [due' cb'] ts IH]; intros Hts; simpl.
  - rewrite Hcb. reflexivity.
  - simpl in Hts. destruct (due <? due').
    + simpl. rewrite Hcb. destruct (timer_names p (due', cb')); [discriminate |].
      rewrite Hts. reflexivity.
    + simpl. destruct (timer_names p (due', cb')); [discriminate |].
      apply IH. exact Hts.
Qed.

Lemma names_below (p q : nat) : (q < p)%nat -> names p q = false.
Proof. intros Hq. apply names_false. lia. Qed.

Lemma call_starts (n : number) (r0 : Realm) :
  well_formed r0 ->
  call_phase n (length (promises r0)) (squareAsync n r0).2.
Proof.
  destruct r0 as [ps ms ts c]. unfold well_formed. cbn [promises microtasks timers].
  intros (Hms & Hts & Hps).
  unfold squareAsync, new_promise, setTimeout, enqueue.
  cbn [promises microtasks timers clock snd].
  rewrite <- !app_assoc, length_app. cbn [app length]. rewrite Nat.add_1_r.
  split.
  - intros q P Hq HP. cbn [promises] in HP.
    apply names_false in Hq as [Hqp Hqs].
    apply lookup_app_Some in HP as [HP | [Hle HP]].
    + rewrite Forall_forall in Hps.
      specialize (Hps P (list_elem_of_lookup_2 _ _ _ HP)).
      eapply Forall_impl; [exact Hps |]. intros f Hf. apply names_below. exact Hf.
    + destruct (q - length ps)%nat as [| [| d]] eqn:Hd; [lia | lia | discriminate].
  - unfold own_jobs, own_timers. cbn [promises microtasks timers].
    left. split; [| split; [| split]].
    + rewrite List.filter_app. simpl. rewrite names_outer. simpl.
      replace (List.filter (job_names (length ps)) ms) with (@nil Job); [reflexivity |].
      symmetry. clear -Hms. induction Hms as [| j ms Hj Hms IH]; [reflexivity |].
      simpl. rewrite IH.
      destruct j as [outer inner | q o]; simpl in Hj |- *.
      * destruct Hj as [Ho Hi]. rewrite !names_below by assumption. reflexivity.
      * rewrite names_below by assumption. reflexivity.
    + exists (c + 1000). apply own_timers_insert; [apply names_inner |].
      clear -Hts. induction Hts as [| t ts Ht Hts IH]; [reflexivity |].
      simpl. unfold timer_names at 1. rewrite names_below by exact Ht. exact IH.
    + apply lookup_new_0.
    + apply lookup_new_1.
Qed.

Lemma squareAsync_promises (n : number) (r0 : Realm) :
  promises (squareAsync n r0).2
  = promises r0 ++ [ {| state := Pending; followers := [] |};
                      {| state := Pending; followers := [] |} ].
Proof.
  unfold squareAsync, new_promise, setTimeout, enqueue.
  cbn [promises snd]. rewrite <- app_assoc. reflexivity.
Qed.

(** X26. In any well-formed realm, whatever other calls are under way
    in it, the call returns a new pending promise; at every later turn the
    promise is pending or settled with the outcome of the callback for [n],
    never with anything else; the loop ends, and once [work r] turns have
    passed the promise is settled with that outcome. *)
Theorem squareAsync_any_realm (n : number) (r0 : Realm) :
  well_formed r0 ->
  exists p r,
    squareAsync n r0 = (Normal p, r)
    /\ promise_state r p = Some Pending
    /\ promise_state r0 p = None
    /\ (forall k, promise_state (run k r) p = Some Pending
                  \/ promise_state (run k r) p = Some (settled_state n))
    /\ (forall k, (work r <= k)%nat ->
                  step (run k r) = None
                  /\ promise_state (run k r) p = Some (settled_state n)).
Proof.
  intros Hwf. pose proof (call_starts n r0 Hwf) as Hphase.
  exists (length (promises r0)), (squareAsync n r0).2.
  split; [reflexivity |].
  split.
  { unfold promise_state. rewrite squareAsync_promises, lookup_new_0. reflexivity. }
  split; [unfold promise_state; rewrite lookup_ge_None_2 by lia; reflexivity |].
  split.
  - intros k. apply phase_state. apply run_phase. exact Hphase.
  - intros k Hk.
    assert (Hidle : step (run k (squareAsync n r0).2) = None) by (apply run_ends; exact Hk).
    split; [exact Hidle |].
    apply phase_idle; [apply run_phase; exact Hphase | exact Hidle].
Qed.


Lemma well_formed_mono (n m : nat) (ms : list Job) (ts : list (Z * TimerCallback))
    (ps : list Promise) :
  (n <= m)%nat ->
  Forall (job_in n) ms ->
  Forall (fun t => (captured_promise t.2 < n)%nat) ts ->
  Forall (fun P => Forall (fun f => (f < n)%nat) (followers P)) ps ->
  Forall (job_in m) ms
  /\ Forall (fun t => (captured_promise t.2 < m)%nat) ts
  /\ Forall (fun P => Forall (fun f => (f < m)%nat) (followers P)) ps.
Proof.
  intros Hnm Hms Hts Hps. split; [| split].
  - eapply Forall_impl; [exact Hms |]. intros [o i | q s]; simpl; lia.
  - eapply Forall_impl; [exact Hts |]. intros t; simpl; lia.
  - eapply Forall_impl; [exact Hps |]. intros P HP.
    eapply Forall_impl; [exact HP |]. intros f; simpl; lia.
Qed.

Lemma Forall_insert_timer (Q : Z * TimerCallback -> Prop) (due : Z) (cb : TimerCallback)
    (ts : list (Z * TimerCallback)) :
  Q (due, cb) -> Forall Q ts -> Forall Q (insert_timer due cb ts).
Proof.
  intros Hcb. induction 1 as [| [due' cb'] ts Ht Hts IH]; simpl.
  - constructor; [exact Hcb | constructor].
  - destruct (due <? due'); repeat constructor; assumption.
Qed.

Lemma well_formed_call (n : number) (r : Realm) :
  well_formed r -> well_formed (squareAsync n r).2.
Proof.
  destruct r as [ps ms ts c]. unfold well_formed. cbn [promises microtasks timers].
  intros (Hms & Hts & Hps).
  unfold squareAsync, new_promise, setTimeout, enqueue.
  cbn [promises microtasks timers clock snd].
  rewrite <- !app_assoc, !length_app. cbn [app length].
  destruct (well_formed_mono (length ps) (length ps + 2) ms ts ps) as (Hms' & Hts' & Hps');
    try assumption; [lia |].
  split; [| split].
  - apply Forall_app. split; [exact Hms' |]. constructor; [simpl; lia | constructor].
  - apply Forall_insert_timer; [simpl; lia | exact Hts'].
  - apply Forall_app. split; [exact Hps' |]. repeat constructor.
Qed.

Lemma well_formed_settle (q : nat) (o : PromiseState) (r : Realm) :
  well_formed r -> well_formed (settle q o r).
Proof.
  unfold well_formed, settle. intros (Hms & Hts & Hps).
  destruct (promises r !! q) as [[[| v | e] fs] |] eqn:HP; auto.
  cbn [promises microtasks timers]. rewrite length_insert.
  split; [| split; [exact Hts |]].
  - apply Forall_app. split; [exact Hms |].
    pose proof (Forall_lookup_1 _ _ _ _ Hps HP) as Hfs. cbn [followers] in Hfs.
    apply Forall_forall. intros j Hj.
    apply list_elem_of_In, in_map_iff in Hj as (f & <- & Hf).
    rewrite Forall_forall in Hfs. apply Hfs, list_elem_of_In, Hf.
  - apply Forall_insert; [exact Hps | constructor].
Qed.

Lemma well_formed_follow (outer inner : nat) (r : Realm) :
  (outer < length (promises r))%nat ->
  well_formed r -> well_formed (follow outer inner r).
Proof.
  unfold well_formed, follow. intros Ho (Hms & Hts & Hps).
  destruct (promises r !! inner) as [[[| v | e] fs] |] eqn:HP; auto.
  - cbn [promises microtasks timers]. rewrite length_insert.
    split; [exact Hms | split; [exact Hts |]].
    apply Forall_insert; [exact Hps |]. cbn [followers].
    apply Forall_app. split; [| constructor; [exact Ho | constructor]].
    exact (Forall_lookup_1 _ _ _ _ Hps HP).
  - unfold enqueue. cbn [promises microtasks timers].
    split; [| auto]. apply Forall_app. split; [exact Hms |].
    constructor; [exact Ho | constructor].
  - unfold enqueue. cbn [promises microtasks timers].
    split; [| auto]. apply Forall_app. split; [exact Hms |].
    constructor; [exact Ho | constructor].
Qed.

Lemma well_formed_step (r r' : Realm) :
  well_formed r -> step r = Some r' -> well_formed r'.
Proof.
  intros (Hms & Hts & Hps) Hstep. unfold step in Hstep.
  destruct (microtasks r) as [| j js] eqn:Hjs.
  - destruct (timers r) as [| [due cb] ts] eqn:Htimers; [discriminate |].
    injection Hstep as <-. rewrite squareAsync_timeout_settle.
    apply well_formed_settle. unfold well_formed. cbn [promises microtasks timers].
    apply Forall_cons in Hts as [_ Hts]. auto.
  - injection Hstep as <-. apply Forall_cons in Hms as [Hj Hms].
    destruct j as [outer inner | q o]; cbn [run_job].
    + apply well_formed_follow; [exact (proj1 Hj) |].
      unfold well_formed. cbn [promises microtasks timers]. auto.
    + apply well_formed_settle. unfold well_formed. cbn [promises microtasks timers].
      auto.
Qed.

Lemma well_formed_busy_realm : well_formed busy_realm.
Proof.
  apply well_formed_call. unfold well_formed, settled_realm.
  cbn [promises microtasks timers]. repeat constructor.
Qed.

Lemma squareAsync_any_realm_witness :
  well_formed busy_realm
  /\ exists p r,
       squareAsync (num_of_Z (-3)) busy_realm = (Normal p, r)
       /\ promise_state r p = Some Pending
       /\ promise_state (run (work r) r) p
          = Some (Rejected {| message := lit "Negative number not allowed" |}).
Proof.
  split; [exact well_formed_busy_realm |].
  destruct (squareAsync_any_realm (num_of_Z (-3)) busy_realm well_formed_busy_realm)
    as (p & r & Hcall & Hpending & _ & _ & Hend).
  exists p, r. split; [exact Hcall |]. split; [exact Hpending |].
  apply (Hend (work r)). lia.
Defined.

(** X27. Every realm a program reaches from a fresh one by calls of
    [squareAsync] and turns of the event loop is well-formed: each promise
    named by a job, a timer or a follower list exists. *)
Theorem reachable_realms_well_formed (r : Realm) : reachable r -> well_formed r.
Proof.
  induction 1 as [now | n r Hr IH | r r' Hr IH Hstep].
  - unfold well_formed, empty_realm. cbn [promises microtasks timers]. auto.
  - apply well_formed_call. exact IH.
  - eapply well_formed_step; eassumption.
Qed.

Lemma reachable_realms_well_formed_witness :
  reachable (squareAsync (num_of_Z 5) (squareAsync (num_of_Z (-3)) (empty_realm 0)).2).2
  /\ well_formed
       (squareAsync (num_of_Z 5) (squareAsync (num_of_Z (-3)) (empty_realm 0)).2).2.
Proof.
  assert (H : reachable
                (squareAsync (num_of_Z 5)
                   (squareAsync (num_of_Z (-3)) (empty_realm 0)).2).2)
    by (apply reach_call, reach_call, reach_empty).
  split; [exact H | apply (reachable_realms_well_formed _ H)].
Defined.

(** ** Number::toString on safe integers *)

Lemma small_multiple (d T : Z) : 4 <= T -> -2 <= d * T <= 2 -> d = 0.
Proof. intros HT Hd. nia. Qed.

Lemma in_interval_integer (p : positive) (q s : Z) :
  Z.pos p < 2 ^ prec -> 0 <= q ->
  in_interval (int_mantissa p) (int_exponent p)
    (10 ^ q * 2 ^ (2 - int_exponent p)) 1 s
  = (s * 10 ^ q =? Z.pos p).
Proof.
  intros Hp Hq.
  pose proof (int_mantissa_value p Hp) as Hm.
  pose proof (digits2_pos_le_prec p Hp) as Hd.
  assert (He : int_exponent p <= 0) by (unfold int_exponent; lia).
  set (t := 2 ^ (- int_exponent p)) in *.
  assert (Ht : 1 <= t) by (unfold t; apply (Z.pow_le_mono_r 2 0); lia).
  assert (HT : 2 ^ (2 - int_exponent p) = 4 * t).
  { unfold t. replace (2 - int_exponent p) with (2 + - int_exponent p) by lia.
    rewrite Z.pow_add_r by lia. reflexivity. }
  assert (Hlo : 4 * Z.pos (int_mantissa p) - 2
                <= round_lo (int_mantissa p) (int_exponent p)
                <= 4 * Z.pos (int_mantissa p) - 1)
    by (unfold round_lo; destruct (_ && _)%bool; lia).
  rewrite HT. unfold in_interval, round_hi.
  revert Hlo. generalize (round_lo (int_mantissa p) (int_exponent p)) as lo.
  rewrite Hm. intros lo Hlo.
  assert (Hpow : 0 < 10 ^ q) by (apply Z.pow_pos_nonneg; lia).
  destruct (Z.eqb_spec (s * 10 ^ q) (Z.pos p)) as [Heq | Hne].
  - rewrite <- Heq in *.
    destruct (Z.even _); apply andb_true_iff; split;
      first [apply Z.leb_le | apply Z.ltb_lt]; nia.
  - assert (Hout : ~ (-2 <= (s * 10 ^ q - Z.pos p) * (4 * t) <= 2)).
    { intros H. apply small_multiple in H; lia. }
    destruct (Z.even _); apply andb_false_iff;
      match goal with
      | |- (?a <=? ?b) = false \/ (?c <=? ?d) = false =>
          destruct (Z.leb_spec a b); [| left; reflexivity];
          destruct (Z.leb_spec c d); [| right; reflexivity]
      | |- (?a <? ?b) = false \/ (?c <? ?d) = false =>
          destruct (Z.ltb_spec a b); [| left; reflexivity];
          destruct (Z.ltb_spec c d); [| right; reflexivity]
      end; exfalso; apply Hout; nia.
Qed.

Lemma significand_at_integer (p : positive) (q : Z) :
  Z.pos p < 2 ^ prec -> 0 <= q ->
  significand_at (int_mantissa p) (int_exponent p) q
  = if Z.pos p mod 10 ^ q =? 0 then Some (Z.pos p / 10 ^ q) else None.
Proof.
  intros Hp Hq.
  pose proof (int_mantissa_value p Hp) as Hm.
  pose proof (digits2_pos_le_prec p Hp) as Hd.
  assert (He : int_exponent p <= 0) by (unfold int_exponent; lia).
  assert (Hpow : 0 < 10 ^ q) by (apply Z.pow_pos_nonneg; lia).
  assert (HT : 0 < 2 ^ (2 - int_exponent p)) by (apply Z.pow_pos_nonneg; lia).
  unfold significand_at.
  destruct (Z.leb_spec 0 (int_exponent p - 2)) as [H | _]; [lia |].
  destruct (Z.leb_spec 0 q) as [_ | H]; [| lia].
  rewrite !Z.mul_1_l, !Z.mul_1_r.
  assert (Hx : 4 * Z.pos (int_mantissa p) = Z.pos p * 2 ^ (2 - int_exponent p)).
  { rewrite Hm. replace (2 - int_exponent p) with (2 + - int_exponent p) by lia.
    rewrite Z.pow_add_r by lia. change (2 ^ 2) with 4. ring. }
  rewrite Hx, Z.div_mul_cancel_r by lia.
  rewrite <- Hx, !in_interval_integer by assumption.
  pose proof (Z.div_mod (Z.pos p) (10 ^ q) ltac:(lia)) as Hdm.
  pose proof (Z.mod_pos_bound (Z.pos p) (10 ^ q) Hpow) as Hmod.
  assert (Hc : ((Z.pos p / 10 ^ q + 1) * 10 ^ q =? Z.pos p) = false)
    by (apply Z.eqb_neq; nia).
  rewrite Hc.
  destruct (Z.eqb_spec (Z.pos p mod 10 ^ q) 0) as [H0 | H0].
  - assert (Hf : (Z.pos p / 10 ^ q * 10 ^ q =? Z.pos p) = true)
      by (apply Z.eqb_eq; nia).
    rewrite Hf.
    assert (H1 : (1 <=? Z.pos p / 10 ^ q) = true) by (apply Z.leb_le; nia).
    rewrite H1. reflexivity.
  - assert (Hf : (Z.pos p / 10 ^ q * 10 ^ q =? Z.pos p) = false)
      by (apply Z.eqb_neq; nia).
    rewrite Hf, andb_false_r. reflexivity.
Qed.

Lemma shortest_decimal_integer (p : positive) (fuel : nat) (q : Z) :
  Z.pos p < 2 ^ prec -> 0 <= q -> (Z.to_nat q < fuel)%nat ->
  exists s q1,
    shortest_decimal fuel (int_mantissa p) (int_exponent p) q = Some (s, q1)
    /\ 0 <= q1 /\ 0 < s /\ s * 10 ^ q1 = Z.pos p.
Proof.
  intros Hp. revert q. induction fuel as [| fuel IH]; intros q Hq Hfuel; [lia |].
  simpl. rewrite significand_at_integer by assumption.
  assert (Hpow : 0 < 10 ^ q) by (apply Z.pow_pos_nonneg; lia).
  pose proof (Z.div_mod (Z.pos p) (10 ^ q) ltac:(lia)) as Hdm.
  destruct (Z.eqb_spec (Z.pos p mod 10 ^ q) 0) as [H0 | H0].
  - exists (Z.pos p / 10 ^ q), q. split; [reflexivity |]. split; [exact Hq |].
    split; nia.
  - destruct (Z.eq_dec q 0) as [-> | Hq0].
    + exfalso. apply H0. change (10 ^ 0) with 1. apply Z.mod_1_r.
    + apply IH; lia.
Qed.

Lemma decimal_digits_acc (fuel : nat) (z : Z) (acc : jsstring) :
  decimal_digits fuel z acc = decimal_digits fuel z [] ++ acc.
Proof.
  revert z acc. induction fuel as [| fuel IH]; intros z acc; simpl; [reflexivity |].
  destruct (z <? 10); [reflexivity |].
  rewrite IH, (IH _ [_]), <- app_assoc. reflexivity.
Qed.

Lemma decimal_digits_fuel (f1 f2 : nat) (z : Z) (acc : jsstring) :
  0 <= z -> z < 2 ^ Z.of_nat (S f1) -> z < 2 ^ Z.of_nat (S f2) ->
  decimal_digits (S f1) z acc = decimal_digits (S f2) z acc.
Proof.
  revert f2 z acc. induction f1 as [| f1 IH]; intros f2 z acc Hz H1 H2.
  - simpl in H1. cbn [decimal_digits].
    destruct (Z.ltb_spec z 10) as [Hlt | Hge]; [reflexivity | lia].
  - cbn [decimal_digits]. destruct (Z.ltb_spec z 10) as [Hlt | Hge]; [reflexivity |].
    rewrite Nat2Z.inj_succ, Z.pow_succ_r in H1, H2 by lia.
    destruct f2 as [| f2]; [simpl in H2; lia |].
    apply IH.
    + apply Z.div_pos; lia.
    + apply Z.div_lt_upper_bound; lia.
    + apply Z.div_lt_upper_bound; lia.
Qed.

Lemma decimal_fuel (z : Z) : 0 <= z -> z < 2 ^ Z.of_nat (S (Z.to_nat (Z.log2 z))).
Proof.
  intros Hz. rewrite Nat2Z.inj_succ, Z2Nat.id by apply Z.log2_nonneg.
  destruct (Z.eq_dec z 0) as [-> | Hnz]; [reflexivity |].
  apply Z.log2_spec. lia.
Qed.

Lemma decimal_small (z : Z) : 0 <= z < 10 -> decimal z = [Z.to_N (48 + z)].
Proof.
  intros Hz. unfold decimal. cbn [decimal_digits].
  destruct (Z.ltb_spec z 10); [| lia]. rewrite Z.mod_small by lia. reflexivity.
Qed.

Lemma decimal_rec (z : Z) :
  10 <= z -> decimal z = decimal (z / 10) ++ [Z.to_N (48 + z mod 10)].
Proof.
  intros Hz. unfold decimal at 1. cbn [decimal_digits].
  destruct (Z.ltb_spec z 10); [lia |].
  rewrite decimal_digits_acc. f_equal. unfold decimal.
  assert (Hq : 0 <= z / 10) by (apply Z.div_pos; lia).
  pose proof (decimal_fuel z ltac:(lia)) as Hf.
  rewrite Nat2Z.inj_succ, Z.pow_succ_r in Hf by lia.
  assert (Hlt : z / 10 < 2 ^ Z.of_nat (Z.to_nat (Z.log2 z)))
    by (apply Z.div_lt_upper_bound; lia).
  destruct (Z.to_nat (Z.log2 z)) as [| f] eqn:Hlog.
  - simpl in Hlt. assert (z / 10 = 0) by lia.
    pose proof (Z.div_mod z 10 ltac:(lia)). pose proof (Z.mod_pos_bound z 10 ltac:(lia)).
    lia.
  - apply decimal_digits_fuel; [exact Hq | exact Hlt | apply decimal_fuel; exact Hq].
Qed.

Lemma digits_value_snoc (s : jsstring) (c : code_unit) :
  digits_value (s ++ [c]) = digits_value s * 10 + (Z.of_N c - 48).
Proof. unfold digits_value. rewrite fold_left_app. reflexivity. Qed.

(** The digits of [decimal] are digits, they denote the integer, and
    the first of them is worth its power of ten. *)
Lemma decimal_spec (z : Z) :
  0 <= z ->
  digits_value (decimal z) = z
  /\ Forall is_digit (decimal z)
  /\ (0 < length (decimal z))%nat
  /\ (0 < z -> 10 ^ (Z.of_nat (length (decimal z)) - 1) <= z).
Proof.
  intros Hz. revert z Hz. apply (Zlt_0_ind
    (fun z => digits_value (decimal z) = z
              /\ Forall is_digit (decimal z)
              /\ (0 < length (decimal z))%nat
              /\ (0 < z -> 10 ^ (Z.of_nat (length (decimal z)) - 1) <= z))).
  intros z IH Hpos.
  destruct (Z_lt_le_dec z 10) as [Hlt | Hge].
  - rewrite decimal_small by lia.
    split; [| split; [| split]].
    + unfold digits_value. simpl. lia.
    + repeat constructor; unfold is_digit; lia.
    + simpl. lia.
    + simpl. lia.
  - rewrite decimal_rec by exact Hge.
    pose proof (Z.div_mod z 10 ltac:(lia)) as Hdm.
    pose proof (Z.mod_pos_bound z 10 ltac:(lia)) as Hmod.
    destruct (IH (z / 10)) as (Hv & Hd & Hl & Hb); [nia |].
    split; [| split; [| split]].
    + rewrite digits_value_snoc, Hv. lia.
    + apply Forall_app. split; [exact Hd |].
      repeat constructor; unfold is_digit; lia.
    + rewrite length_app. simpl. lia.
    + intros _. rewrite length_app. simpl length.
      replace (Z.of_nat (length (decimal (z / 10)) + 1) - 1)
        with (Z.succ (Z.of_nat (length (decimal (z / 10))) - 1)) by lia.
      rewrite Z.pow_succ_r by lia.
      specialize (Hb ltac:(nia)). nia.
Qed.

Lemma decimal_shift (s : Z) (n : nat) :
  0 < s -> decimal (s * 10 ^ Z.of_nat n) = decimal s ++ repeat 48%N n.
Proof.
  intros Hs. induction n as [| n IH].
  - simpl. rewrite Z.mul_1_r, app_nil_r. reflexivity.
  - assert (Hpow : 0 < 10 ^ Z.of_nat n) by (apply Z.pow_pos_nonneg; lia).
    rewrite Nat2Z.inj_succ, Z.pow_succ_r by lia.
    replace (s * (10 * 10 ^ Z.of_nat n)) with (s * 10 ^ Z.of_nat n * 10) by ring.
    rewrite decimal_rec by nia.
    rewrite Z.div_mul, Z.mod_mul, IH by lia.
    rewrite <- app_assoc. f_equal. change [Z.to_N (48 + 0)] with (repeat 48%N 1).
    rewrite <- repeat_app. f_equal. lia.
Qed.

Lemma Number_toString_pos (sg : bool) (p : positive) :
  Z.pos p < 2 ^ prec ->
  Number_toString (S754_finite sg (int_mantissa p) (int_exponent p))
  = (if sg then lit "-" else []) ++ decimal (Z.pos p).
Proof.
  intros Hp. unfold Number_toString. f_equal.
  destruct (shortest_decimal_integer p 700 309 Hp) as (s & q1 & Hshort & Hq1 & Hs & Hval);
    [lia | simpl; lia |].
  rewrite Hshort.
  destruct (decimal_spec s ltac:(lia)) as (_ & _ & Hlen & Hbound).
  specialize (Hbound Hs).
  set (k := Z.of_nat (length (decimal s))) in *.
  assert (Hk : q1 + k <= 21).
  { assert (Hpow : 10 ^ (k - 1 + q1) < 10 ^ 16).
    { rewrite Z.pow_add_r by lia. unfold prec in Hp.
      assert (0 < 10 ^ q1) by (apply Z.pow_pos_nonneg; lia). nia. }
    apply Z.pow_lt_mono_r_iff in Hpow; lia. }
  unfold layout. fold k.
  destruct (Z.leb_spec k (q1 + k)) as [_ | H]; [| lia].
  destruct (Z.leb_spec (q1 + k) 21) as [_ | H]; [| lia].
  cbn [andb]. unfold zeros. replace (q1 + k - k) with q1 by lia.
  rewrite <- Hval.
  replace (10 ^ q1) with (10 ^ Z.of_nat (Z.to_nat q1)) by (rewrite Z2Nat.id; lia).
  symmetry. apply decimal_shift. exact Hs.
Qed.

Lemma Number_toString_safe (z : Z) :
  safe_integer z ->
  Number_toString (num_of_Z z)
  = (if z <? 0 then lit "-" else []) ++ decimal (Z.abs z).
Proof.
  unfold safe_integer. intros Hz. destruct z as [| p | p].
  - reflexivity.
  - rewrite num_of_Z_pos by lia. apply (Number_toString_pos false). lia.
  - rewrite num_of_Z_neg by lia. apply (Number_toString_pos true). lia.
Qed.

(** A safe integer is written by a template literal with its
    decimal digits, after a minus sign when it is below 0: the digits are
    digits, they denote the size of the integer, and no exponent or
    fraction is written. *)
Theorem Number_toString_integer (z : Z) :
  safe_integer z ->
  Number_toString (num_of_Z z)
  = (if z <? 0 then lit "-" else []) ++ decimal (Z.abs z)
  /\ digits_value (decimal (Z.abs z)) = Z.abs z
  /\ Forall is_digit (decimal (Z.abs z)).
Proof.
  intros Hz. split; [apply Number_toString_safe; exact Hz |].
  destruct (decimal_spec (Z.abs z) ltac:(lia)) as (Hv & Hd & _). auto.
Qed.

Lemma Number_toString_integer_witness :
  safe_integer 2020
  /\ Number_toString (num_of_Z 2020) = lit "2020"
  /\ digits_value (lit "2020") = 2020.
Proof.
  assert (H : safe_integer 2020) by (unfold safe_integer, prec; lia).
  destruct (Number_toString_integer 2020 H) as (Hs & Hv & _).
  split; [exact H |]. split; [exact Hs | exact Hv].
Defined.

(** X28. For a year that is a safe integer, [getInfo] writes the line
    ["Make: <make>, Year: "] followed by the decimal digits of the year
    (after a minus sign when the year is below 0). *)
Theorem Car_getInfo_integer_year (m d : jsstring) (y : Z) (out : console) :
  safe_integer y ->
  Car_getInfo (new_Car m (num_of_Z y) d) out
  = out ++ [ lit "Make: " ++ m ++ lit ", Year: "
               ++ (if y <? 0 then lit "-" else []) ++ decimal (Z.abs y) ]
  /\ digits_value (decimal (Z.abs y)) = Z.abs y.
Proof.
  intros Hy. split.
  - unfold Car_getInfo, new_Car, Vehicle_getInfo, new_Vehicle, console_log.
    cbn [Car_super make year]. rewrite Number_toString_safe by exact Hy. reflexivity.
  - apply (decimal_spec (Z.abs y)). lia.
Qed.

Lemma Car_getInfo_integer_year_witness :
  safe_integer 2020
  /\ Car_getInfo (new_Car (lit "Toyota") (num_of_Z 2020) (lit "Corolla")) []
     = [lit "Make: Toyota, Year: 2020"].
Proof.
  assert (H : safe_integer 2020) by (unfold safe_integer, prec; lia).
  split; [exact H |].
  apply (Car_getInfo_integer_year (lit "Toyota") (lit "Corolla") 2020 [] H).
Defined.
